(** * A file-per-record document store: the storage engine of [main.go]

    The development embeds the [Driver] of [src/main.go] (operations [New],
    [Write], [Read], [ReadAll], [Delete], [GetOrCreateMutex] and the helper
    [stat]) over an explicit model of what the engine calls from Go's standard
    library: [path/filepath] ([Clean], [Join]), [os] and [io/ioutil] (a
    directory tree with the usual path walk), [sync] (a log of lock events on
    allocated mutexes) and [encoding/json] (a serializer taken as a
    parameter). *)

From Stdlib Require Import Ascii.
From Stdlib Require String.
From stdpp Require Import base option list strings gmap.

(** ** Strings and path elements *)

Module Path.

(** [os.PathSeparator] on Unix. *)
Definition Separator : ascii := "/"%char.

(** [strings.Split(s, "/")]: the elements between separators, empty ones
    kept; never the empty list. *)
Fixpoint split_path (s : string) : list string :=
  match s with
  | EmptyString => [""]
  | String c s' =>
      if decide (c = Separator) then "" :: split_path s'
      else match split_path s' with
           | h :: t => String c h :: t
           | [] => [String c ""]
           end
  end.

(** [strings.Join(elems, "/")]. *)
Definition join_path (elems : list string) : string := String.concat "/" elems.

(** [true] when the separator does not occur in [s]. *)
Fixpoint no_sep (s : string) : bool :=
  match s with
  | EmptyString => true
  | String c s' => if decide (c = Separator) then false else no_sep s'
  end.

(** A path element that names a directory entry: not empty, not [.] and not
    [..], and free of separators. *)
Definition plain (e : string) : bool :=
  no_sep e && bool_decide (e ≠ "") && bool_decide (e ≠ ".") && bool_decide (e ≠ "..").

(** The walk of [filepath.Clean] over the elements of a path, left to right.
    [out] is the stack of the elements kept so far, innermost first. Empty
    elements and [.] are dropped; [..] pops the element before it, is dropped
    at the top of a rooted path, and is kept at the front of a relative one. *)
Fixpoint clean_elems (rooted : bool) (out : list string) (elems : list string)
  : list string :=
  match elems with
  | [] => out
  | e :: rest =>
      if decide (e = "" ∨ e = ".") then clean_elems rooted out rest
      else if decide (e = "..") then
        match out with
        | top :: out' =>
            if decide (top = "..") then clean_elems rooted (e :: out) rest
            else clean_elems rooted out' rest
        | [] =>
            if rooted then clean_elems rooted [] rest
            else clean_elems rooted [e] rest
        end
      else clean_elems rooted (e :: out) rest
  end.

Definition is_rooted (path : string) : bool :=
  match path with
  | String c _ => bool_decide (c = Separator)
  | EmptyString => false
  end.

(** The text of a cleaned path from its kept elements. *)
Definition render (rooted : bool) (out : list string) : string :=
  if rooted then "/" +:+ join_path (rev out)
  else match out with
       | [] => "."
       | _ => join_path (rev out)
       end.

(** [filepath.Clean]: the shortest path name equivalent to [path] by purely
    lexical processing; the empty path cleans to [.]. *)
Definition Clean (path : string) : string :=
  if decide (path = "") then "."
  else render (is_rooted path) (clean_elems (is_rooted path) [] (split_path path)).

(** [filepath.Join]: the elements from the first non-empty one on are joined
    with the separator and the result is cleaned; when every element is
    empty the result is the empty string. *)
Fixpoint Join (elem : list string) : string :=
  match elem with
  | [] => ""
  | e :: rest =>
      if decide (e = "") then Join rest else Clean (join_path elem)
  end.

(** The shape of the stack of [clean_elems]: plain names above a run of
    [..], which only a relative path has. *)
Fixpoint kept (rooted : bool) (out : list string) : Prop :=
  match out with
  | [] => True
  | top :: rest =>
      (plain top = true ∧ kept rooted rest)
      ∨ (top = ".." ∧ rooted = false ∧ Forall (λ e, e = "..") rest)
  end.

(** The last byte of a string. *)
Fixpoint last_char (s : string) : option ascii :=
  match s with
  | EmptyString => None
  | String c s' => match last_char s' with Some c' => Some c' | None => Some c end
  end.

(** The last element of a path name. *)
Definition base (path : string) : string := List.last (split_path path) "".

End Path.

(** ** The directory tree behind [os] and [io/ioutil] *)

Module FS.
Import Path.

(** The [syscall.Errno] values the modelled calls can produce. *)
Inductive errno := ENOENT | ENOTDIR | EISDIR | EEXIST | ENOTEMPTY | EINVAL | EBUSY.

Global Instance errno_eq_dec : EqDecision errno.
Proof. solve_decision. Defined.

Inductive result (A : Type) :=
| Ok (a : A)
| Err (e : errno).
Global Arguments Ok {A} a.
Global Arguments Err {A} e.

(** A regular file with its bytes, or a directory with its entries. *)
#[warnings="-register-all"]
Inductive node :=
| File (data : string)
| Dir (entries : list (string * node)).

(** The tree below [/] and the working directory of the process, as the
    names from [/] down to it. *)
Record filesystem := { root : node; cwd : list string }.

Fixpoint find_entry (name : string) (es : list (string * node)) : option node :=
  match es with
  | [] => None
  | (n, c) :: es' => if decide (n = name) then Some c else find_entry name es'
  end.

(** Replace the entry [name] where it stands, or add it at the end. *)
Fixpoint put_entry (name : string) (c : node) (es : list (string * node))
  : list (string * node) :=
  match es with
  | [] => [(name, c)]
  | (n, c') :: es' =>
      if decide (n = name) then (name, c) :: es'
      else (n, c') :: put_entry name c es'
  end.

Fixpoint del_entry (name : string) (es : list (string * node))
  : list (string * node) :=
  match es with
  | [] => []
  | (n, c) :: es' =>
      if decide (n = name) then del_entry name es'
      else (n, c) :: del_entry name es'
  end.

(** The node at the location [p], a list of entry names from [n] down. *)
Fixpoint lookup_node (p : list string) (n : node) : option node :=
  match p with
  | [] => Some n
  | x :: p' =>
      match n with
      | File _ => None
      | Dir es =>
          match find_entry x es with
          | Some c => lookup_node p' c
          | None => None
          end
      end
  end.

(** Put [c] at the location [p]; the directory that is to hold it must
    exist, otherwise the tree is unchanged. *)
Fixpoint set_node (p : list string) (c : node) (n : node) : node :=
  match p with
  | [] => c
  | x :: p' =>
      match n with
      | File _ => n
      | Dir es =>
          match find_entry x es with
          | Some ch => Dir (put_entry x (set_node p' c ch) es)
          | None =>
              match p' with
              | [] => Dir (put_entry x c es)
              | _ => n
              end
          end
      end
  end.

(** Remove the entry at the location [p] with everything below it. *)
Fixpoint remove_node (p : list string) (n : node) : node :=
  match p with
  | [] => n
  | x :: p' =>
      match n with
      | File _ => n
      | Dir es =>
          match p' with
          | [] => Dir (del_entry x es)
          | _ =>
              match find_entry x es with
              | Some ch => Dir (put_entry x (remove_node p' ch) es)
              | None => n
              end
          end
      end
  end.

(** The kernel's walk over the elements of a path name from the directory at
    [cur]: every element is looked up in a directory; empty elements and [.]
    stay, [..] goes up (and stays at [/]). The result is the location
    reached; whether its last name exists is for the caller to check. *)
Fixpoint walk (r : node) (cur : list string) (elems : list string)
  : result (list string) :=
  match elems with
  | [] => Ok cur
  | e :: rest =>
      match lookup_node cur r with
      | None => Err ENOENT
      | Some (File _) => Err ENOTDIR
      | Some (Dir _) =>
          if decide (e = "" ∨ e = ".") then walk r cur rest
          else if decide (e = "..") then walk r (removelast cur) rest
          else walk r (cur ++ [e]) rest
      end
  end.

Definition start_of (fs : filesystem) (path : string) : list string :=
  if is_rooted path then [] else cwd fs.

(** Resolve a path name to the location and node it names. *)
Definition namei (fs : filesystem) (path : string) : result (list string * node) :=
  if decide (path = "") then Err ENOENT
  else match walk (root fs) (start_of fs path) (split_path path) with
       | Err e => Err e
       | Ok p =>
           match lookup_node p (root fs) with
           | Some n => Ok (p, n)
           | None => Err ENOENT
           end
       end.

(** Resolve all but the last element of a path name: the location of the
    directory that holds (or is to hold) the entry, and the entry's name. *)
Definition namei_parent (fs : filesystem) (path : string)
  : result (list string * string) :=
  if decide (path = "") then Err ENOENT
  else let elems := split_path path in
       match walk (root fs) (start_of fs path) (removelast elems) with
       | Err e => Err e
       | Ok p =>
           match lookup_node p (root fs) with
           | Some (Dir _) => Ok (p, List.last elems "")
           | Some (File _) => Err ENOTDIR
           | None => Err ENOENT
           end
       end.

(** Whether the location [c] holds a directory. *)
Definition dir_at (c : list string) (r : node) : Prop :=
  ∃ es, lookup_node c r = Some (Dir es).

(** [fs'] has every directory of [fs] (and the same working directory). *)
Definition keeps_dirs (fs fs' : filesystem) : Prop :=
  cwd fs' = cwd fs ∧ ∀ c, dir_at c (root fs) -> dir_at c (root fs').

(** [fs'] has every file of [fs] with its bytes, but for those at the
    locations in [but]. *)
Definition keeps_files (but : list string -> Prop) (fs fs' : filesystem) : Prop :=
  ∀ c d, ¬ but c ->
    lookup_node c (root fs) = Some (File d) ->
    lookup_node c (root fs') = Some (File d).

Definition nowhere : list string -> Prop := λ _, False.

Definition with_root (fs : filesystem) (r : node) : filesystem :=
  {| root := r; cwd := cwd fs |}.

(** [os.FileMode], as far as [IsDir] and [IsRegular] tell. [ModeIrregular]
    stands for devices, pipes and sockets, which this tree does not hold. *)
Inductive FileMode := ModeDir | ModeRegular | ModeIrregular.

Definition IsDir (m : FileMode) : bool :=
  match m with ModeDir => true | _ => false end.
Definition IsRegular (m : FileMode) : bool :=
  match m with ModeRegular => true | _ => false end.

Record FileInfo := { Name : string; Mode : FileMode }.

Definition mode_of (n : node) : FileMode :=
  match n with File _ => ModeRegular | Dir _ => ModeDir end.

(** [os.Stat]. *)
Definition Stat (fs : filesystem) (path : string) : result FileInfo :=
  match namei fs path with
  | Err e => Err e
  | Ok (p, n) => Ok {| Name := List.last (split_path path) ""; Mode := mode_of n |}
  end.

(** [os.IsNotExist] on the error of a call. *)
Definition IsNotExist (e : errno) : bool := bool_decide (e = ENOENT).

(** [os.Mkdir]. *)
Definition Mkdir (fs : filesystem) (path : string) : result filesystem :=
  match namei_parent fs path with
  | Err e => Err e
  | Ok (p, b) =>
      if plain b then
        match lookup_node (p ++ [b]) (root fs) with
        | Some _ => Err EEXIST
        | None => Ok (with_root fs (set_node (p ++ [b]) (Dir []) (root fs)))
        end
      else Err EEXIST
  end.

(** [os.MkdirAll] on the elements of the path, last one first: when the path
    is no directory yet, first the parent (when its name is not empty), then
    [Mkdir] of the path itself; an error of that [Mkdir] is forgiven when the
    path is a directory after all. *)
Fixpoint MkdirAll_elems (fs : filesystem) (relems : list string)
  : result filesystem :=
  let path := join_path (rev relems) in
  match Stat fs path with
  | Ok fi => if IsDir (Mode fi) then Ok fs else Err ENOTDIR
  | Err _ =>
      let made :=
        match relems with
        | [] => Ok fs
        | _ :: parent =>
            if decide (join_path (rev parent) = "") then Ok fs
            else MkdirAll_elems fs parent
        end in
      match made with
      | Err e => Err e
      | Ok fs1 =>
          match Mkdir fs1 path with
          | Ok fs2 => Ok fs2
          | Err e =>
              match Stat fs1 path with
              | Ok fi => if IsDir (Mode fi) then Ok fs1 else Err e
              | Err _ => Err e
              end
          end
      end
  end.

Definition MkdirAll (fs : filesystem) (path : string) : result filesystem :=
  MkdirAll_elems fs (rev (split_path path)).

(** [ioutil.WriteFile]: create or truncate the file and write the bytes. *)
Definition WriteFile (fs : filesystem) (path : string) (data : string)
  : result filesystem :=
  match namei_parent fs path with
  | Err e => Err e
  | Ok (p, b) =>
      if plain b then
        match lookup_node (p ++ [b]) (root fs) with
        | Some (Dir _) => Err EISDIR
        | _ => Ok (with_root fs (set_node (p ++ [b]) (File data) (root fs)))
        end
      else Err EISDIR
  end.

(** [ioutil.ReadFile]. *)
Definition ReadFile (fs : filesystem) (path : string) : result string :=
  match namei fs path with
  | Err e => Err e
  | Ok (_, File data) => Ok data
  | Ok (_, Dir _) => Err EISDIR
  end.

Fixpoint insert_sorted (name : string) (names : list string) : list string :=
  match names with
  | [] => [name]
  | n :: rest =>
      if String.leb name n then name :: names
      else n :: insert_sorted name rest
  end.

Definition sort_names (names : list string) : list string :=
  foldr insert_sorted [] names.

(** [ioutil.ReadDir]: the names of the entries of a directory, sorted. *)
Definition ReadDir (fs : filesystem) (path : string) : result (list string) :=
  match namei fs path with
  | Err e => Err e
  | Ok (_, File _) => Err ENOTDIR
  | Ok (_, Dir es) => Ok (sort_names (map fst es))
  end.

(** [os.Rename]: move the entry at [oldpath] to [newpath], replacing a file
    or an empty directory of the same kind there. *)
Definition Rename (fs : filesystem) (oldpath newpath : string)
  : result filesystem :=
  match namei_parent fs oldpath with
  | Err e => Err e
  | Ok (po, bo) =>
      if negb (plain bo) then Err EBUSY
      else match lookup_node (po ++ [bo]) (root fs) with
      | None => Err ENOENT
      | Some src =>
          match namei_parent fs newpath with
          | Err e => Err e
          | Ok (pn, bn) =>
              if negb (plain bn) then Err EBUSY
              else if decide (po ++ [bo] = pn ++ [bn]) then Ok fs
              else
                let move :=
                  Ok (with_root fs
                        (set_node (pn ++ [bn]) src
                           (remove_node (po ++ [bo]) (root fs)))) in
                match src, lookup_node (pn ++ [bn]) (root fs) with
                | File _, Some (Dir _) => Err EISDIR
                | File _, _ => move
                | Dir _, Some (File _) => Err ENOTDIR
                | Dir _, Some (Dir (_ :: _)) => Err ENOTEMPTY
                | Dir _, _ =>
                    if decide ((po ++ [bo]) `prefix_of` (pn ++ [bn])) then Err EINVAL
                    else move
                end
          end
      end
  end.

(** The test [endsWithDot] of [os.RemoveAll]. *)
Definition endsWithDot (path : string) : bool :=
  bool_decide (path = ".")
  || bool_decide (2 <= length (split_path path) ∧ List.last (split_path path) "" = ".").

(** [os.RemoveAll]: remove the path and everything below it; no error when
    the path does not exist. A path whose last element is [.] is refused. A
    directory named through an empty last element or [..] cannot be removed
    under that name: its entries go and the error of the last [rmdir]
    remains. *)
Definition RemoveAll (fs : filesystem) (path : string)
  : filesystem * option errno :=
  if decide (path = "") then (fs, None)
  else if endsWithDot path then (fs, Some EINVAL)
  else match namei_parent fs path with
  | Err e => (fs, if IsNotExist e then None else Some e)
  | Ok (p, b) =>
      if plain b then (with_root fs (remove_node (p ++ [b]) (root fs)), None)
      else match namei fs path with
      | Err e => (fs, if IsNotExist e then None else Some e)
      | Ok (q, File _) => (fs, Some ENOTDIR)
      | Ok (q, Dir _) =>
          (with_root fs (set_node q (Dir []) (root fs)),
           Some (if decide (q = []) then EBUSY else ENOTEMPTY))
      end
  end.

End FS.

(** ** The storage engine *)

Module Engine.
Import Path FS.

(** Go's [error] values the engine returns: the ones it makes itself with
    [fmt.Errorf], the [*os.PathError] of a failed call of [os] or [ioutil],
    and the errors of [encoding/json]. A nil error is [None]. *)
Inductive error :=
| Errorf (msg : string)
| PathError (e : errno)
| MarshalError
| UnmarshalError.

Global Instance error_eq_dec : EqDecision error.
Proof. solve_decision. Defined.

(** The locks of a driver: its field [mutex], and the [sync.Mutex] values it
    allocates for collections, numbered in the order of allocation. *)
Inductive lock := RegistryMutex | CollectionMutex (m : nat).

Inductive event := Lock (l : lock) | Unlock (l : lock).

(** The fields [mutexes] and [dir] of the struct [Driver]; the field [mutex]
    is [RegistryMutex]. *)
Record Driver := { mutexes : gmap string nat; dir : string }.

(** What a call of the engine can read and change: the driver it is called
    on, the file system, the number of mutexes allocated so far, and the log
    of [Lock] and [Unlock] calls, oldest first. *)
Record state := {
  driver : Driver;
  disk : filesystem;
  allocated : nat;
  events : list event
}.

Definition with_disk (st : state) (fs : filesystem) : state :=
  {| driver := driver st; disk := fs;
     allocated := allocated st; events := events st |}.

Definition emit (e : event) (st : state) : state :=
  {| driver := driver st; disk := disk st;
     allocated := allocated st; events := events st ++ [e] |}.

Definition newline : string := String "010"%char "".
Definition tab : string := String "009"%char "".

(** The error classes of the specification. *)
Definition ValidationError (e : error) : bool :=
  bool_decide (e ∈ [Errorf "Missing collection - no place to save record!";
                    Errorf "Missing resource - unable to save record (no name)!";
                    Errorf "Missing collection - unable to read!";
                    Errorf "Missing resource - unable to read record!";
                    Errorf "Missing collection - unable to read"]).

Definition NotFoundError (e : error) : bool :=
  match e with
  | PathError ENOENT => true
  | Errorf msg =>
      bool_decide (String.prefix "unable to find file or directory named " msg = true)
  | _ => false
  end.

(** [New]: the driver over the cleaned directory; the directory is made when
    [os.Stat] does not find it. The logger plays no part in the model. *)
Definition New (dir : string) (fs : filesystem) : option error * state :=
  let dir := Clean dir in
  let st := {| driver := {| mutexes := ∅; dir := dir |}; disk := fs;
               allocated := 0; events := [] |} in
  match Stat fs dir with
  | Ok _ => (None, st)
  | Err _ =>
      match Mkdir fs dir with
      | Ok fs' => (None, with_disk st fs')
      | Err e => (Some (PathError e), st)
      end
  end.

Definition GetOrCreateMutex (collection : string) (st : state) : nat * state :=
  let st := emit (Lock RegistryMutex) st in
  match mutexes (driver st) !! collection with
  | Some m => (m, emit (Unlock RegistryMutex) st)
  | None =>
      let m := allocated st in
      (m, emit (Unlock RegistryMutex)
            {| driver := {| mutexes := <[collection := m]> (mutexes (driver st));
                            dir := dir (driver st) |};
               disk := disk st;
               allocated := S m;
               events := events st |})
  end.

(** checks for the file with json *)
Definition stat (fs : filesystem) (path : string) : result FileInfo :=
  match Stat fs path with
  | Ok fi => Ok fi
  | Err e => if IsNotExist e then Stat fs (path +:+ ".json") else Err e
  end.

(** The body of [ReadAll]'s loop over the listed files. *)
Fixpoint ReadAll_loop (fs : filesystem) (dir : string) (files : list string)
    (records : list string) : list string * option error :=
  match files with
  | [] => (records, None)
  | file :: rest =>
      match ReadFile fs (Join [dir; file]) with
      | Err e => ([], Some (PathError e))
      | Ok b => ReadAll_loop fs dir rest (records ++ [b])
      end
  end.

Definition ReadAll (collection : string) (st : state)
  : (list string * option error) * state :=
  if decide (collection = "") then
    (([], Some (Errorf "Missing collection - unable to read")), st)
  else
    let dir := Join [dir (driver st); collection] in
    match stat (disk st) dir with
    | Err e => (([], Some (PathError e)), st)
    | Ok _ =>
        let files :=
          match ReadDir (disk st) dir with Ok files => files | Err _ => [] end in
        (ReadAll_loop (disk st) dir files [], st)
    end.

Definition Delete (collection resource : string) (st : state)
  : option error * state :=
  let path := Join [collection; resource] in
  let '(mutex, st) := GetOrCreateMutex collection st in
  let st := emit (Lock (CollectionMutex mutex)) st in
  let dir := Join [dir (driver st); path] in
  let '(err, st) :=
    match stat (disk st) dir with
    | Err _ =>
        (Some (Errorf ("unable to find file or directory named " +:+ path +:+ newline)), st)
    | Ok fi =>
        if IsDir (Mode fi) then
          let '(fs, e) := RemoveAll (disk st) dir in
          (PathError <$> e, with_disk st fs)
        else if IsRegular (Mode fi) then
          let '(fs, e) := RemoveAll (disk st) (dir +:+ ".json") in
          (PathError <$> e, with_disk st fs)
        else (None, st)
    end in
  (err, emit (Unlock (CollectionMutex mutex)) st).

(** A log in which every lock that is taken is released before the next
    one is taken. *)
Fixpoint paired (evs : list event) : Prop :=
  match evs with
  | [] => True
  | Lock l :: Unlock l' :: rest => l = l' ∧ paired rest
  | _ => False
  end.

(** The events of a call that takes the lock of a collection: the registry
    lock around the lookup, then the lock [m] of the collection around the
    work. *)
Definition locked_call (m : nat) : list event :=
  [Lock RegistryMutex; Unlock RegistryMutex;
   Lock (CollectionMutex m); Unlock (CollectionMutex m)].

(** Every lock in the registry has been allocated, and no two names share
    one. *)
Definition registry_ok (st : state) : Prop :=
  (∀ c m, mutexes (driver st) !! c = Some m -> m < allocated st)
  ∧ (∀ c1 c2 m, mutexes (driver st) !! c1 = Some m ->
                mutexes (driver st) !! c2 = Some m -> c1 = c2).

(** The paths of a collection and of a resource in it, as [Write] ([dir],
    [fnlPath], [tmpPath]) and [Read] ([record]) compute them. *)
Definition collection_dir (st : state) (collection : string) : string :=
  Join [dir (driver st); collection].

Definition final_path (st : state) (collection resource : string) : string :=
  Join [collection_dir st collection; resource +:+ ".json"].

Definition temp_path (st : state) (collection resource : string) : string :=
  final_path st collection resource +:+ ".tmp".

Definition record_path (st : state) (collection resource : string) : string :=
  Join [dir (driver st); collection; resource].

(** The target of [Delete]. *)
Definition delete_path (st : state) (collection resource : string) : string :=
  Join [dir (driver st); Join [collection; resource]].

(** The locations that a [Write] may change: the entries of the final path
    and of the temp path in the directory that holds them. *)
Definition Write_targets (st st' : state) (collection resource : string)
  : list string -> Prop :=
  λ q, ∃ p, namei_parent (disk st') (final_path st collection resource)
            = Ok (p, base (final_path st collection resource))
          ∧ (q = p ++ [base (final_path st collection resource)]
             ∨ q = p ++ [base (final_path st collection resource) +:+ ".tmp"]).

(** [encoding/json] is a parameter of the engine: [MarshalIndent v prefix
    indent] gives the bytes or fails, [Unmarshal data out] gives the value
    behind the reference after the call and whether it succeeded. *)
Section Serializer.

Context {V : Type}.
Variable MarshalIndent : V -> string -> string -> option string.
Variable Unmarshal : string -> V -> V * bool.

Definition Write (collection resource : string) (v : V) (st : state)
  : option error * state :=
  if decide (collection = "") then
    (Some (Errorf "Missing collection - no place to save record!"), st)
  else if decide (resource = "") then
    (Some (Errorf "Missing resource - unable to save record (no name)!"), st)
  else
    let '(mutex, st) := GetOrCreateMutex collection st in
    let st := emit (Lock (CollectionMutex mutex)) st in
    let dir := Join [dir (driver st); collection] in
    let fnlPath := Join [dir; resource +:+ ".json"] in
    let tmpPath := fnlPath +:+ ".tmp" in
    let '(err, st) :=
      match MkdirAll (disk st) dir with
      | Err e => (Some (PathError e), st)
      | Ok fs1 =>
          match MarshalIndent v "" tab with
          | None => (Some MarshalError, with_disk st fs1)
          | Some b =>
              let b := b +:+ newline in
              match WriteFile fs1 tmpPath b with
              | Err e => (Some (PathError e), with_disk st fs1)
              | Ok fs2 =>
                  match Rename fs2 tmpPath fnlPath with
                  | Err e => (Some (PathError e), with_disk st fs2)
                  | Ok fs3 => (None, with_disk st fs3)
                  end
              end
          end
      end in
    (err, emit (Unlock (CollectionMutex mutex)) st).

Definition Read (collection resource : string) (v : V) (st : state)
  : (option error * V) * state :=
  if decide (collection = "") then
    ((Some (Errorf "Missing collection - unable to read!"), v), st)
  else if decide (resource = "") then
    ((Some (Errorf "Missing resource - unable to read record!"), v), st)
  else
    let record := Join [dir (driver st); collection; resource] in
    match stat (disk st) record with
    | Err e => ((Some (PathError e), v), st)
    | Ok _ =>
        match ReadFile (disk st) (record +:+ ".json") with
        | Err e => ((Some (PathError e), v), st)
        | Ok b =>
            let '(v', ok) := Unmarshal b v in
            ((if ok then None else Some UnmarshalError, v'), st)
        end
    end.

(** The way a [Write] that passes the validation went. *)
Inductive Write_outcome (st : state) (collection resource : string) (v : V)
  : option error -> filesystem -> Prop :=
| Write_no_dir (e : errno) :
    MkdirAll (disk st) (collection_dir st collection) = Err e ->
    Write_outcome st collection resource v (Some (PathError e)) (disk st)
| Write_no_bytes (fs1 : filesystem) :
    MkdirAll (disk st) (collection_dir st collection) = Ok fs1 ->
    MarshalIndent v "" tab = None ->
    Write_outcome st collection resource v (Some MarshalError) fs1
| Write_no_temp (fs1 : filesystem) (b : string) (e : errno) :
    MkdirAll (disk st) (collection_dir st collection) = Ok fs1 ->
    MarshalIndent v "" tab = Some b ->
    WriteFile fs1 (temp_path st collection resource) (b +:+ newline) = Err e ->
    Write_outcome st collection resource v (Some (PathError e)) fs1
| Write_no_rename (fs1 fs2 : filesystem) (b : string) (e : errno) :
    MkdirAll (disk st) (collection_dir st collection) = Ok fs1 ->
    MarshalIndent v "" tab = Some b ->
    WriteFile fs1 (temp_path st collection resource) (b +:+ newline) = Ok fs2 ->
    Rename fs2 (temp_path st collection resource)
      (final_path st collection resource) = Err e ->
    Write_outcome st collection resource v (Some (PathError e)) fs2
| Write_done (fs1 fs2 fs3 : filesystem) (b : string) :
    MkdirAll (disk st) (collection_dir st collection) = Ok fs1 ->
    MarshalIndent v "" tab = Some b ->
    WriteFile fs1 (temp_path st collection resource) (b +:+ newline) = Ok fs2 ->
    Rename fs2 (temp_path st collection resource)
      (final_path st collection resource) = Ok fs3 ->
    Write_outcome st collection resource v None fs3.

(** A call of the engine, and a run of calls one after the other. *)
Inductive call :=
| CallWrite (collection resource : string) (v : V)
| CallRead (collection resource : string) (v : V)
| CallReadAll (collection : string)
| CallDelete (collection resource : string)
| CallGetOrCreateMutex (collection : string).

Definition run_call (k : call) (st : state) : state :=
  match k with
  | CallWrite collection resource v => (Write collection resource v st).2
  | CallRead collection resource v => (Read collection resource v st).2
  | CallReadAll collection => (ReadAll collection st).2
  | CallDelete collection resource => (Delete collection resource st).2
  | CallGetOrCreateMutex collection => (GetOrCreateMutex collection st).2
  end.

Definition run (ks : list call) (st : state) : state :=
  foldl (λ st k, run_call k st) st ks.

End Serializer.

End Engine.

(** ** Sample states *)

Module Sample.
Import Path FS Engine.

(** A serializer for the examples: a value is its JSON text, or a value
    that cannot be encoded; decoding takes the text without the line feed
    at its end, and fails on no text at all. *)
Definition value : Type := option string.

Definition MarshalIndent (v : value) (prefix indent : string) : option string := v.

Fixpoint chomp (s : string) : string :=
  match s with
  | EmptyString => EmptyString
  | String c s' =>
      match s' with
      | EmptyString => if decide (String c s' = newline) then EmptyString else s
      | _ => String c (chomp s')
      end
  end.

Definition Unmarshal (data : string) (out : value) : value * bool :=
  if decide (data = "") then (out, false) else (Some (chomp data), true).

(** A machine with the directory [/home], where the process runs. *)
Definition home : filesystem :=
  {| root := Dir [("home", Dir [])]; cwd := ["home"] |}.

(** The driver of a new database in [db], and the one of [main], in the
    working directory. *)
Definition fresh : state := (New "db" home).2.
Definition here : state := (New "./" home).2.

(** One record written. *)
Definition stored : state :=
  (Write MarshalIndent "users" "John" (Some "{}") fresh).2.

(** A disk where [db] holds the path [tree]. *)
Definition on_disk (st : state) (tree : list (string * node)) : state :=
  with_disk st {| root := Dir [("home", Dir [("db", Dir tree)])]; cwd := ["home"] |}.

(** Two records written; a directory where a record is to go; a directory
    among the records; a machine where [db] is a file. *)
Definition two : state :=
  (Write MarshalIndent "users" "Jim" (Some "[]") stored).2.
Definition mixed : state :=
  on_disk fresh [("users", Dir [("a.json", File "1"); ("old", Dir [])])].
Definition file_db : filesystem :=
  {| root := Dir [("home", Dir [("db", File "x")])]; cwd := ["home"] |}.

End Sample.

(** * Facts *)

(** ** Splitting, joining and cleaning path names *)

Module PathFacts.
Import Path.

Lemma append_cons (c : ascii) (s t : string) :
  String c s +:+ t = String c (s +:+ t).
Proof. reflexivity. Qed.

Lemma append_nil_r (s : string) : s +:+ "" = s.
Proof. induction s as [|c s IH]; [done|]. by rewrite append_cons, IH. Qed.

Lemma append_assoc (s t u : string) : (s +:+ t) +:+ u = s +:+ (t +:+ u).
Proof. induction s as [|c s IH]; [done|]. by rewrite !append_cons, IH. Qed.

Lemma append_eq_nil (s t : string) : s +:+ t = "" -> s = "" ∧ t = "".
Proof. destruct s; [done|]. by rewrite append_cons. Qed.

Example Clean_ex1 : Clean "./" = ".". Proof. reflexivity. Qed.
Example Clean_ex2 : Clean "a//b/./c/.." = "a/b". Proof. reflexivity. Qed.
Example Clean_ex3 : Clean "/../a/../.." = "/". Proof. reflexivity. Qed.
Example Clean_ex4 : Clean "../../a/../../b" = "../../../b". Proof. reflexivity. Qed.
Example Join_ex1 : Join ["db"; "users"; "John"] = "db/users/John". Proof. reflexivity. Qed.
Example Join_ex2 : Join [""; ""] = "". Proof. reflexivity. Qed.
Example Join_ex3 : Join ["users"; ""] = "users". Proof. reflexivity. Qed.
Example Join_ex4 : Join ["."; "users"; ".."] = ".". Proof. reflexivity. Qed.

Lemma last_app_ne {A} (l1 l2 : list A) (d : A) :
  l2 ≠ [] -> List.last (l1 ++ l2) d = List.last l2 d.
Proof.
  intros Hne. destruct (exists_last Hne) as (l' & a & ->).
  by rewrite app_assoc, !List.last_last.
Qed.

Lemma split_path_not_nil (s : string) : split_path s ≠ [].
Proof.
  induction s as [|c s IH]; simpl; [done|].
  case_decide; [done|]. by destruct (split_path s).
Qed.

(** Splitting distributes over a separator. *)
Lemma split_path_sep (a b : string) :
  split_path (a +:+ "/" +:+ b) = split_path a ++ split_path b.
Proof.
  induction a as [|c a IH].
  - reflexivity.
  - rewrite append_cons. simpl. case_decide.
    + by rewrite IH.
    + rewrite IH. pose proof (split_path_not_nil a).
      by destruct (split_path a).
Qed.

(** A suffix without separator extends the last element. *)
Lemma split_path_suffix (a t : string) :
  no_sep t = true ->
  split_path (a +:+ t) =
    removelast (split_path a) ++ [List.last (split_path a) "" +:+ t].
Proof.
  intros Ht. induction a as [|c a IH].
  - change (split_path t = [t]). clear -Ht.
    induction t as [|c t IHt]; [done|].
    simpl in *. case_decide; [done|]. by rewrite IHt.
  - rewrite append_cons. simpl. case_decide.
    + rewrite IH. pose proof (split_path_not_nil a).
      destruct (split_path a) eqn:E; [done|]. reflexivity.
    + rewrite IH. pose proof (split_path_not_nil a).
      destruct (split_path a) as [|h l] eqn:E; [done|].
      destruct l as [|h' l]; [done|]. reflexivity.
Qed.

Lemma split_path_no_sep (s : string) : no_sep s = true -> split_path s = [s].
Proof.
  induction s as [|c s IH]; simpl; [done|].
  case_decide; [done|]. intros H'. by rewrite IH.
Qed.

Lemma no_sep_split (s : string) : Forall (λ e, no_sep e = true) (split_path s).
Proof.
  induction s as [|c s IH]; simpl.
  - by constructor.
  - case_decide.
    + by constructor.
    + pose proof (split_path_not_nil s).
      destruct (split_path s) as [|h l]; [done|].
      inversion IH; subst. constructor; [|done]. simpl. by case_decide.
Qed.

Lemma no_sep_app (s t : string) :
  no_sep s = true -> no_sep t = true -> no_sep (s +:+ t) = true.
Proof.
  intros Hs Ht. induction s as [|c s IH]; [done|].
  rewrite append_cons. simpl in *. case_decide; [done|]. auto.
Qed.

Lemma join_path_cons (e : string) (l : list string) :
  l ≠ [] -> join_path (e :: l) = e +:+ "/" +:+ join_path l.
Proof. by destruct l. Qed.

Lemma join_path_snoc (l : list string) (e : string) :
  l ≠ [] -> join_path (l ++ [e]) = join_path l +:+ "/" +:+ e.
Proof.
  induction l as [|x l IH]; [done|]. intros _.
  destruct l as [|y l]; [done|].
  change ((x :: y :: l) ++ [e]) with (x :: ((y :: l) ++ [e])).
  rewrite join_path_cons by done. rewrite IH by done.
  rewrite (join_path_cons x (y :: l)) by done.
  by rewrite !append_assoc.
Qed.

Lemma join_path_suffix (l : list string) (e t : string) :
  join_path (l ++ [e +:+ t]) = join_path (l ++ [e]) +:+ t.
Proof.
  destruct l as [|x l] using rev_ind.
  - reflexivity.
  - rewrite (join_path_snoc (l ++ [x]) (e +:+ t)) by (by destruct l).
    rewrite (join_path_snoc (l ++ [x]) e) by (by destruct l).
    by rewrite !append_assoc.
Qed.

Lemma split_join (l : list string) :
  l ≠ [] -> Forall (λ e, no_sep e = true) l -> split_path (join_path l) = l.
Proof.
  induction l as [|x l IH]; [done|]. intros _ Hl.
  inversion Hl; subst.
  destruct l as [|y l].
  - by apply split_path_no_sep.
  - rewrite join_path_cons by done. rewrite split_path_sep.
    rewrite IH by done. by rewrite split_path_no_sep.
Qed.

Lemma clean_elems_app (rooted : bool) (out l1 l2 : list string) :
  clean_elems rooted out (l1 ++ l2)
  = clean_elems rooted (clean_elems rooted out l1) l2.
Proof.
  revert out. induction l1 as [|e l1 IH]; intros out; [done|].
  simpl. repeat case_decide; try done.
  destruct out as [|top out']; [by destruct rooted|].
  by case_decide.
Qed.

Lemma plain_no_sep (e : string) : plain e = true -> no_sep e = true.
Proof. unfold plain. rewrite !andb_true_iff. tauto. Qed.

Lemma plain_inv (e : string) :
  plain e = true -> e ≠ "" ∧ e ≠ "." ∧ e ≠ "..".
Proof.
  unfold plain. rewrite !andb_true_iff, !bool_decide_eq_true. tauto.
Qed.

Lemma plain_intro (e : string) :
  no_sep e = true -> e ≠ "" -> e ≠ "." -> e ≠ ".." -> plain e = true.
Proof.
  intros. unfold plain. rewrite !andb_true_iff, !bool_decide_eq_true. tauto.
Qed.

(** A plain name stays plain under a suffix without separator. *)
Lemma plain_suffix (b t : string) :
  plain b = true -> no_sep t = true -> plain (b +:+ t) = true.
Proof.
  intros Hb Ht. pose proof (plain_no_sep _ Hb) as Hs.
  destruct (plain_inv _ Hb) as (H0 & H1 & H2).
  apply plain_intro.
  - by apply no_sep_app.
  - intros E. by apply append_eq_nil in E as [? _].
  - destruct b as [|c b]; [done|]. rewrite append_cons. intros [= -> E].
    apply append_eq_nil in E as [-> _]. done.
  - destruct b as [|c b]; [done|]. rewrite append_cons. intros [= -> E].
    destruct b as [|c b]; [done|]. rewrite append_cons in E.
    injection E as -> E. apply append_eq_nil in E as [-> _]. done.
Qed.

(** A name with the extension is plain whatever stands before it. *)
Lemma plain_ext (x t : string) :
  no_sep x = true -> no_sep t = true -> 2 < String.length t ->
  plain (x +:+ t) = true.
Proof.
  intros Hx Ht Hlen.
  assert (Hl : ∀ a b, String.length (a +:+ b) = String.length a + String.length b).
  { intros a b. induction a as [|c a IH]; [done|]. rewrite append_cons. simpl. by rewrite IH. }
  apply plain_intro.
  - by apply no_sep_app.
  - intros E. apply (f_equal String.length) in E. rewrite Hl in E. simpl in E. lia.
  - intros E. apply (f_equal String.length) in E. rewrite Hl in E. simpl in E. lia.
  - intros E. apply (f_equal String.length) in E. rewrite Hl in E. simpl in E. lia.
Qed.

Lemma kept_dots (out : list string) :
  Forall (λ e, e = "..") out -> kept false out.
Proof.
  induction 1 as [|e out -> Hd IH]; [done|]. simpl. right. auto.
Qed.

Lemma kept_no_sep (rooted : bool) (out : list string) :
  kept rooted out -> Forall (λ e, no_sep e = true) out.
Proof.
  induction out as [|top rest IH]; [by constructor|].
  intros [[Hp Hk]|(-> & _ & Hd)].
  - constructor; [by apply plain_no_sep | auto].
  - constructor; [done|]. eapply Forall_impl; [exact Hd|]. by intros ? ->.
Qed.

Lemma kept_clean_elems (rooted : bool) (out elems : list string) :
  kept rooted out -> Forall (λ e, no_sep e = true) elems ->
  kept rooted (clean_elems rooted out elems).
Proof.
  intros Hk He. revert out Hk.
  induction He as [|e elems Hs _ IH]; intros out Hk; [done|].
  simpl. case_decide as H1; [auto|]. case_decide as H2.
  - subst e. destruct out as [|top out'].
    + destruct rooted; apply IH; [done|]. simpl. right. by repeat split.
    + case_decide as H3.
      * apply IH. subst top. simpl. right.
        destruct Hk as [[Hp _]|(_ & Hr & Hd)]; [done|].
        split; [done|]. split; [done|]. by constructor.
      * apply IH. destruct Hk as [[_ Hk]|(E & _)]; [done|]. by destruct H3.
  - apply IH. simpl. left. split; [|done].
    apply plain_intro; [done|..]; naive_solver.
Qed.

(** Cleaning the elements of a cleaned path gives them back. *)
Lemma clean_elems_kept (rooted : bool) (out : list string) :
  kept rooted out -> clean_elems rooted [] (rev out) = out.
Proof.
  induction out as [|top rest IH]; [done|].
  intros Hk. simpl rev. rewrite clean_elems_app.
  destruct Hk as [[Hp Hk]|(-> & -> & Hd)].
  - rewrite IH by done. destruct (plain_inv _ Hp) as (H0 & H1 & H2).
    simpl. destruct (decide (top = "" ∨ top = ".")) as [[?|?]|_]; [done..|].
    by destruct (decide (top = "..")).
  - rewrite IH by (by apply kept_dots). simpl.
    destruct rest as [|top' rest']; [done|].
    inversion Hd; subst. by case_decide.
Qed.

Lemma is_rooted_append (a b : string) :
  a ≠ "" -> is_rooted (a +:+ b) = is_rooted a.
Proof. by destruct a. Qed.

Lemma is_rooted_no_sep (e : string) : no_sep e = true -> is_rooted e = false.
Proof.
  destruct e as [|c e]; [done|]. simpl. case_decide; [done|].
  intros _. by apply bool_decide_eq_false.
Qed.

Lemma join_path_rev_first (out : list string) (rooted : bool) :
  kept rooted out -> out ≠ [] ->
  join_path (rev out) ≠ "" ∧ is_rooted (join_path (rev out)) = false.
Proof.
  intros Hk Hne.
  assert (Hall : Forall (λ e, no_sep e = true ∧ e ≠ "") (rev out)).
  { apply Forall_rev. clear Hne. induction out as [|top rest IH]; [by constructor|].
    destruct Hk as [[Hp Hk]|(-> & -> & Hd)].
    - constructor; [|auto]. split; [by apply plain_no_sep|]. by apply plain_inv.
    - constructor; [done|]. eapply Forall_impl; [exact Hd|]. by intros ? ->. }
  assert (Hne' : rev out ≠ []).
  { intros E. apply (f_equal (@rev string)) in E. rewrite rev_involutive in E. done. }
  destruct (rev out) as [|x l]; [done|].
  inversion Hall as [|? ? [Hs Hx] _]; subst.
  destruct l as [|y l].
  - split; [done|]. by apply is_rooted_no_sep.
  - rewrite join_path_cons by done. split.
    + intros E. by apply append_eq_nil in E as [? _].
    + rewrite is_rooted_append by done. by apply is_rooted_no_sep.
Qed.

Lemma render_not_nil (rooted : bool) (out : list string) :
  kept rooted out -> render rooted out ≠ "".
Proof.
  intros Hk. unfold render. destruct rooted; [done|].
  destruct out as [|top rest]; [done|].
  by apply (join_path_rev_first (top :: rest) false).
Qed.

Lemma is_rooted_render (rooted : bool) (out : list string) :
  kept rooted out -> is_rooted (render rooted out) = rooted.
Proof.
  intros Hk. unfold render. destruct rooted; [done|].
  destruct out as [|top rest]; [done|].
  by apply (join_path_rev_first (top :: rest) false).
Qed.

Lemma split_render (rooted : bool) (out : list string) :
  kept rooted out ->
  clean_elems rooted [] (split_path (render rooted out)) = out.
Proof.
  intros Hk. unfold render.
  assert (Hs : out ≠ [] -> split_path (join_path (rev out)) = rev out).
  { intros Hne. apply split_join.
    - intros E. apply (f_equal (@rev string)) in E. by rewrite rev_involutive in E.
    - apply Forall_rev. by eapply kept_no_sep. }
  destruct rooted.
  - change ("/" +:+ join_path (rev out)) with ("" +:+ "/" +:+ join_path (rev out)).
    rewrite split_path_sep. destruct out as [|top rest]; [done|].
    rewrite Hs by done. simpl app.
    change (clean_elems true [] (rev (top :: rest)) = top :: rest).
    by apply clean_elems_kept.
  - destruct out as [|top rest]; [done|].
    rewrite Hs by done. by apply clean_elems_kept.
Qed.

Lemma kept_split (path : string) :
  kept (is_rooted path) (clean_elems (is_rooted path) [] (split_path path)).
Proof. apply kept_clean_elems; [done | apply no_sep_split]. Qed.

Lemma Clean_not_nil (path : string) : Clean path ≠ "".
Proof.
  unfold Clean. case_decide; [done|]. apply render_not_nil, kept_split.
Qed.

(** Cleaning the left part of a path first changes nothing. *)
Lemma Clean_Clean_sep (a b : string) :
  a ≠ "" -> Clean (Clean a +:+ "/" +:+ b) = Clean (a +:+ "/" +:+ b).
Proof.
  intros Ha. pose proof (Clean_not_nil a) as Hc.
  unfold Clean at 1 3.
  case_decide as E1; [by apply append_eq_nil in E1 as [? _]|].
  case_decide as E2; [by apply append_eq_nil in E2 as [? _]|].
  rewrite !is_rooted_append by done.
  rewrite !split_path_sep, !clean_elems_app.
  unfold Clean. case_decide; [done|].
  rewrite is_rooted_render by apply kept_split.
  by rewrite split_render by apply kept_split.
Qed.

Lemma Clean_idem (a : string) : Clean (Clean a) = Clean a.
Proof.
  unfold Clean at 1. case_decide as E; [by apply Clean_not_nil in E|].
  unfold Clean. case_decide as Ea; [done|].
  rewrite is_rooted_render by apply kept_split.
  by rewrite split_render by apply kept_split.
Qed.

(** One step of [clean_elems] after the elements kept of a relative path. *)
Lemma clean_elems_relative_step (rooted : bool) (out k : list string) (e : string) :
  kept false k -> no_sep e = true ->
  clean_elems rooted (clean_elems rooted out (rev k)) [e]
  = clean_elems rooted out (rev (clean_elems false k [e])).
Proof.
  intros Hk He. simpl.
  destruct (decide (e = "" ∨ e = ".")) as [_|H1]; [done|].
  destruct (decide (e = "..")) as [->|H2].
  - destruct k as [|top k'].
    + done.
    + destruct (decide (top = "..")) as [->|H3].
      * change (rev (".." :: ".." :: k')) with (rev (".." :: k') ++ [".."]).
        by rewrite clean_elems_app.
      * destruct Hk as [[Hp Hk]|(E & _)]; [|done].
        simpl rev. rewrite clean_elems_app. simpl.
        destruct (plain_inv _ Hp) as (H0 & H4 & H5).
        destruct (decide (top = "" ∨ top = ".")) as [[?|?]|_]; [done..|].
        destruct (decide (top = "..")); [done|].
        by destruct (decide (top = "..")).
  - change (rev (e :: k)) with (rev k ++ [e]). rewrite clean_elems_app. simpl.
    destruct (decide (e = "" ∨ e = ".")); [done|].
    by destruct (decide (e = "..")).
Qed.

(** The elements of a relative path may be cleaned on their own first. *)
Lemma clean_elems_relative (rooted : bool) (out l : list string) :
  Forall (λ e, no_sep e = true) l ->
  clean_elems rooted out l
  = clean_elems rooted out (rev (clean_elems false [] l)).
Proof.
  induction l as [|e l IH] using rev_ind; intros Hl; [done|].
  apply Forall_app in Hl as [Hl He]. inversion He; subst.
  rewrite !clean_elems_app. rewrite IH by done.
  apply clean_elems_relative_step; [|done].
  apply (kept_clean_elems false); [done|done].
Qed.

(** Cleaning the right part of a path first changes nothing when that part
    is relative. *)
Lemma Clean_sep_Clean (a b : string) :
  a ≠ "" -> is_rooted b = false ->
  Clean (a +:+ "/" +:+ Clean b) = Clean (a +:+ "/" +:+ b).
Proof.
  intros Ha Hb. unfold Clean at 1 3.
  case_decide as E1; [by apply append_eq_nil in E1 as [? _]|].
  case_decide as E2; [by apply append_eq_nil in E2 as [? _]|].
  rewrite !is_rooted_append by done.
  rewrite !split_path_sep, !clean_elems_app. f_equal.
  rewrite (clean_elems_relative _ _ (split_path b)) by apply no_sep_split.
  unfold Clean. case_decide as Eb.
  - by subst b.
  - rewrite Hb. pose proof (kept_split b) as Hk. rewrite Hb in Hk.
    set (k := clean_elems false [] (split_path b)) in *.
    unfold render. destruct k as [|top k'] eqn:Ek; [done|].
    rewrite split_join; [done| |].
    + intros E. apply (f_equal (@rev string)) in E. by rewrite rev_involutive in E.
    + apply Forall_rev. by eapply kept_no_sep.
Qed.

Lemma base_sep (a b : string) : base (a +:+ "/" +:+ b) = base b.
Proof.
  unfold base. rewrite split_path_sep. pose proof (split_path_not_nil b).
  by rewrite last_app_ne by done.
Qed.

Lemma base_suffix (a t : string) :
  no_sep t = true -> base (a +:+ t) = base a +:+ t.
Proof.
  intros Ht. unfold base. rewrite split_path_suffix by done.
  by rewrite List.last_last.
Qed.

Lemma base_no_sep (a : string) : no_sep (base a) = true.
Proof.
  unfold base. pose proof (no_sep_split a) as H. pose proof (split_path_not_nil a).
  induction H as [|x l Hx Hl IH]; [done|].
  destruct l; [done|]. by apply IH.
Qed.

Lemma split_path_base (a : string) :
  split_path a = removelast (split_path a) ++ [base a].
Proof. apply app_removelast_last, split_path_not_nil. Qed.

(** A path that ends in a plain name keeps it when cleaned; a suffix without
    separator commutes with cleaning. *)
Lemma Clean_plain_base (y : string) :
  plain (base y) = true ->
  clean_elems (is_rooted y) [] (split_path y)
  = base y :: clean_elems (is_rooted y) [] (removelast (split_path y)).
Proof.
  intros Hp.
  transitivity (clean_elems (is_rooted y) []
                  (removelast (split_path y) ++ [base y])).
  { by rewrite <- split_path_base. }
  rewrite clean_elems_app.
  set (o := clean_elems _ [] _). simpl.
  destruct (plain_inv _ Hp) as (H0 & H1 & H2).
  destruct (decide (base y = "" ∨ base y = ".")) as [[?|?]|_]; [done..|].
  by destruct (decide (base y = "..")).
Qed.

Lemma base_render (rooted : bool) (b : string) (out : list string) :
  kept rooted (b :: out) -> base (render rooted (b :: out)) = b.
Proof.
  intros Hk.
  assert (Hs : split_path (join_path (rev (b :: out))) = rev (b :: out)).
  { apply split_join.
    - simpl. by destruct (rev out).
    - apply Forall_rev. by eapply kept_no_sep. }
  unfold render, base. destruct rooted.
  - change ("/" +:+ join_path (rev (b :: out)))
      with ("" +:+ "/" +:+ join_path (rev (b :: out))).
    rewrite split_path_sep, Hs. simpl rev.
    rewrite app_assoc. by rewrite List.last_last.
  - rewrite Hs. simpl rev. by rewrite List.last_last.
Qed.

Lemma base_Clean (y : string) :
  plain (base y) = true -> base (Clean y) = base y.
Proof.
  intros Hp. pose proof (Clean_plain_base y Hp) as E.
  unfold Clean. case_decide as Ey; [by subst y|].
  rewrite E. apply base_render. rewrite <- E. apply kept_split.
Qed.

Lemma Clean_suffix (y t : string) :
  plain (base y) = true -> no_sep t = true ->
  Clean (y +:+ t) = Clean y +:+ t.
Proof.
  intros Hp Ht.
  assert (Hy : y ≠ "") by (by intros ->).
  unfold Clean.
  case_decide as E1; [by apply append_eq_nil in E1 as [? _]|].
  case_decide as E2; [done|].
  rewrite is_rooted_append by done.
  rewrite split_path_suffix by done. rewrite clean_elems_app.
  rewrite (Clean_plain_base y Hp).
  fold (base y).
  set (o := clean_elems (is_rooted y) [] (removelast (split_path y))) in *.
  assert (Hp' : plain (base y +:+ t) = true) by (by apply plain_suffix).
  destruct (plain_inv _ Hp') as (H0' & H1' & H2').
  simpl.
  destruct (decide (base y +:+ t = "" ∨ base y +:+ t = ".")) as [[?|?]|_]; [done..|].
  destruct (decide (base y +:+ t = "..")); [done|].
  unfold render. simpl rev. rewrite join_path_suffix.
  destruct (is_rooted y); [by rewrite append_assoc | done].
Qed.

Lemma Join_2 (a b : string) :
  a ≠ "" -> Join [a; b] = Clean (a +:+ "/" +:+ b).
Proof. intros Ha. simpl. by case_decide. Qed.

Lemma Join_3 (a b c : string) :
  a ≠ "" -> Join [a; b; c] = Clean (a +:+ "/" +:+ b +:+ "/" +:+ c).
Proof. intros Ha. simpl. by case_decide. Qed.

Lemma Join_nil_l (l : list string) : Join ("" :: l) = Join l.
Proof. reflexivity. Qed.

Lemma Join_1 (a : string) : a ≠ "" -> Join [a] = Clean a.
Proof. intros Ha. simpl. by case_decide. Qed.


Lemma Join_not_nil (a : string) (l : list string) : a ≠ "" -> Join (a :: l) ≠ "".
Proof. intros Ha. simpl. case_decide; [done|]. apply Clean_not_nil. Qed.

(** The final path of [Write] is the record path of [Read] with the
    extension, when the resource ends in a plain name. *)
Lemma Join_final_path (d collection resource : string) :
  collection ≠ "" -> plain (base resource) = true ->
  Join [Join [d; collection]; resource +:+ ".json"]
  = Join [d; collection; resource] +:+ ".json".
Proof.
  intros Hc Hr.
  assert (Hn : no_sep ".json" = true) by done.
  destruct (decide (d = "")) as [->|Hd].
  - rewrite !Join_nil_l. rewrite Join_1 by done.
    rewrite !Join_2 by (done || apply Clean_not_nil).
    rewrite Clean_Clean_sep by done.
    rewrite <- Clean_suffix; [by rewrite !append_assoc | | done].
    by rewrite base_sep.
  - rewrite (Join_2 d) by done. rewrite Join_2 by apply Clean_not_nil.
    rewrite Join_3 by done.
    rewrite Clean_Clean_sep by (intros E; by apply append_eq_nil in E as [? _]).
    rewrite <- Clean_suffix; [by rewrite !append_assoc | | done].
    by rewrite !base_sep.
Qed.

(** The target of [Delete] is the record path of [Read] for a relative
    collection name. *)
Lemma Join_delete_path (d collection resource : string) :
  collection ≠ "" -> is_rooted collection = false ->
  Join [d; Join [collection; resource]] = Join [d; collection; resource].
Proof.
  intros Hc Hrel. rewrite (Join_2 collection) by done.
  destruct (decide (d = "")) as [->|Hd].
  - rewrite !Join_nil_l, Join_1 by apply Clean_not_nil.
    rewrite Join_2 by done. apply Clean_idem.
  - rewrite Join_2, Join_3 by done.
    apply Clean_sep_Clean; [done|]. by rewrite is_rooted_append.
Qed.

End PathFacts.

(** ** The directory tree *)

Module FSFacts.
Import Path PathFacts FS.

Lemma find_put_eq (x : string) (c : node) (es : list (string * node)) :
  find_entry x (put_entry x c es) = Some c.
Proof.
  induction es as [|[n c'] es IH]; simpl.
  - by case_decide.
  - case_decide; simpl; by case_decide.
Qed.

Lemma find_put_ne (x y : string) (c : node) (es : list (string * node)) :
  x ≠ y -> find_entry y (put_entry x c es) = find_entry y es.
Proof.
  intros Hne. induction es as [|[n c'] es IH]; simpl.
  - by case_decide.
  - case_decide; simpl.
    + subst n. by repeat case_decide.
    + case_decide; [done|]. apply IH.
Qed.

Lemma find_del_eq (x : string) (es : list (string * node)) :
  find_entry x (del_entry x es) = None.
Proof.
  induction es as [|[n c'] es IH]; simpl; [done|].
  case_decide; [done|]. simpl. by case_decide.
Qed.

Lemma find_del_ne (x y : string) (es : list (string * node)) :
  x ≠ y -> find_entry y (del_entry x es) = find_entry y es.
Proof.
  intros Hne. induction es as [|[n c'] es IH]; simpl; [done|].
  case_decide; simpl.
  - subst n. by case_decide.
  - case_decide; [done|]. apply IH.
Qed.

Lemma lookup_node_app (p q : list string) (n : node) :
  lookup_node (p ++ q) n = lookup_node p n ≫= lookup_node q.
Proof.
  revert n. induction p as [|x p IH]; intros n; [done|].
  simpl. destruct n as [|es]; [done|].
  destruct (find_entry x es); [apply IH | done].
Qed.

Lemma lookup_node_file (d : string) (p : list string) :
  p ≠ [] -> lookup_node p (File d) = None.
Proof. by destruct p. Qed.

(** Two locations compare in one of four ways. *)
Lemma location_cases (c q : list string) :
  c = q
  ∨ (∃ k, k ≠ [] ∧ q = c ++ k)
  ∨ (∃ k, k ≠ [] ∧ c = q ++ k)
  ∨ (∃ l a b c' q', a ≠ b ∧ c = l ++ a :: c' ∧ q = l ++ b :: q').
Proof.
  revert q. induction c as [|x c IH]; intros [|y q].
  - by left.
  - right; left. by exists (y :: q).
  - right; right; left. by exists (x :: c).
  - destruct (decide (x = y)) as [->|Hne].
    + destruct (IH q) as [->|[(k & ? & ->)|[(k & ? & ->)|(l & a & b & c' & q' & ? & -> & ->)]]].
      * by left.
      * right; left. by exists k.
      * right; right; left. by exists k.
      * right; right; right. by exists (y :: l), a, b, c', q'.
    + right; right; right. by exists [], x, y, c, q.
Qed.

(** *** [set_node] *)

Lemma lookup_set_node_eq (p : list string) (b : string) (c r : node) :
  dir_at p r -> lookup_node (p ++ [b]) (set_node (p ++ [b]) c r) = Some c.
Proof.
  revert r. induction p as [|x p IH]; intros r [es Hes]; simpl in *.
  - injection Hes as ->. destruct (find_entry b es); simpl; by rewrite find_put_eq.
  - destruct r as [|es']; [done|].
    destruct (find_entry x es') as [ch|] eqn:E; [|done].
    simpl. rewrite find_put_eq. apply IH. by exists es.
Qed.

Lemma lookup_set_node_diverge (l : list string) (a b : string)
    (c' q' : list string) (n r : node) :
  a ≠ b ->
  lookup_node (l ++ a :: c') (set_node (l ++ b :: q') n r)
  = lookup_node (l ++ a :: c') r.
Proof.
  intros Hne. revert r. induction l as [|x l IH]; intros r; simpl.
  - destruct r as [|es]; [done|].
    destruct (find_entry b es) as [ch|] eqn:E.
    + simpl. by rewrite find_put_ne by done.
    + destruct q'; [|done]. simpl. by rewrite find_put_ne by done.
  - destruct r as [|es]; [done|].
    destruct (find_entry x es) as [ch|] eqn:E.
    + simpl. rewrite find_put_eq. apply IH.
    + destruct (l ++ b :: q') eqn:E'; [by destruct l|].
      simpl. by rewrite E.
Qed.

Lemma dir_at_set_node_above (c k : list string) (n r : node) :
  k ≠ [] -> dir_at c r -> dir_at c (set_node (c ++ k) n r).
Proof.
  intros Hk. revert r. induction c as [|x c IH]; intros r [es Hes]; simpl in *.
  - injection Hes as ->. destruct k as [|y k]; [done|]. simpl.
    destruct (find_entry y es); [by eexists|].
    destruct k; by eexists.
  - destruct r as [|es']; [done|].
    destruct (find_entry x es') as [ch|] eqn:E; [|done].
    destruct (IH ch) as [es'' Hes'']; [by exists es|].
    exists es''. simpl. by rewrite find_put_eq.
Qed.

(** Putting a node where no directory stands keeps every directory. *)
Lemma dir_at_set_node (q c : list string) (n r : node) :
  ¬ dir_at q r -> dir_at c r -> dir_at c (set_node q n r).
Proof.
  intros Hq Hc.
  destruct (location_cases c q) as [->|[(k & ? & ->)|[(k & ? & ->)|(l & a & b & c' & q' & ? & -> & ->)]]].
  - done.
  - by apply dir_at_set_node_above.
  - destruct Hc as [es Hes]. rewrite lookup_node_app in Hes.
    destruct (lookup_node q r) as [[d|es']|] eqn:E; simpl in Hes.
    + by rewrite lookup_node_file in Hes.
    + destruct Hq. by exists es'.
    + done.
  - destruct Hc as [es Hes]. exists es. by rewrite lookup_set_node_diverge.
Qed.

(** ... and every file but the one at that place. *)
Lemma file_at_set_node (q c : list string) (n r : node) (d : string) :
  ¬ dir_at q r -> c ≠ q ->
  lookup_node c r = Some (File d) -> lookup_node c (set_node q n r) = Some (File d).
Proof.
  intros Hq Hne Hc.
  destruct (location_cases c q) as [->|[(k & ? & ->)|[(k & ? & ->)|(l & a & b & c' & q' & ? & -> & ->)]]].
  - done.
  - clear Hne Hq. revert r Hc.
    induction c as [|x c IH]; intros r Hc; simpl in *.
    + injection Hc as ->. by destruct k.
    + destruct r as [|es']; [done|].
      destruct (find_entry x es') as [ch|] eqn:E; [|done].
      simpl. rewrite find_put_eq. by apply IH.
  - rewrite lookup_node_app in Hc.
    destruct (lookup_node q r) as [[d'|es']|] eqn:E; simpl in Hc.
    + by rewrite lookup_node_file in Hc.
    + destruct Hq. by exists es'.
    + done.
  - by rewrite lookup_set_node_diverge.
Qed.

(** *** [remove_node] *)

Lemma remove_node_deep (x : string) (q : list string) (es : list (string * node)) :
  q ≠ [] ->
  remove_node (x :: q) (Dir es)
  = match find_entry x es with
    | Some ch => Dir (put_entry x (remove_node q ch) es)
    | None => Dir es
    end.
Proof. by destruct q. Qed.

Lemma lookup_remove_node_below (q k : list string) (r : node) :
  q ≠ [] -> lookup_node (q ++ k) (remove_node q r) = None.
Proof.
  intros Hq. revert r. induction q as [|x q IH]; intros r; [done|].
  simpl. destruct r as [|es]; [done|].
  destruct q as [|y q].
  - simpl. by rewrite find_del_eq.
  - destruct (find_entry x es) as [ch|] eqn:E.
    + simpl. rewrite find_put_eq. by apply IH.
    + simpl. by rewrite E.
Qed.

Lemma lookup_remove_node_diverge (l : list string) (a b : string)
    (c' q' : list string) (r : node) :
  a ≠ b ->
  lookup_node (l ++ a :: c') (remove_node (l ++ b :: q') r)
  = lookup_node (l ++ a :: c') r.
Proof.
  intros Hne. revert r. induction l as [|x l IH]; intros r.
  - simpl. destruct r as [|es]; [done|].
    destruct q' as [|y q'].
    + simpl. by rewrite find_del_ne by done.
    + destruct (find_entry b es) as [ch|] eqn:E; [|done].
      simpl. by rewrite find_put_ne by done.
  - rewrite <- !app_comm_cons. destruct r as [|es]; [done|].
    rewrite remove_node_deep by (by destruct l).
    destruct (find_entry x es) as [ch|] eqn:E; [|done].
    simpl. rewrite find_put_eq, E. apply IH.
Qed.

Lemma dir_at_remove_node_above (c k : list string) (r : node) :
  k ≠ [] -> dir_at c r -> dir_at c (remove_node (c ++ k) r).
Proof.
  intros Hk. revert r. induction c as [|x c IH]; intros r [es Hes].
  - simpl in *. injection Hes as ->. destruct k as [|y k]; [done|]. simpl.
    destruct k; [by eexists|]. destruct (find_entry y es); by eexists.
  - rewrite <- app_comm_cons. destruct r as [|es']; [done|].
    rewrite remove_node_deep by (by destruct c, k).
    simpl in Hes.
    destruct (find_entry x es') as [ch|] eqn:E; [|done].
    destruct (IH ch) as [es'' Hes'']; [by exists es|].
    exists es''. simpl. by rewrite find_put_eq.
Qed.

(** Removing an entry keeps every directory that is not at or below it. *)
Lemma dir_at_remove_node (q c : list string) (r : node) :
  ¬ (q `prefix_of` c) -> dir_at c r -> dir_at c (remove_node q r).
Proof.
  intros Hq Hc.
  destruct (location_cases c q) as [->|[(k & ? & ->)|[(k & ? & ->)|(l & a & b & c' & q' & ? & -> & ->)]]].
  - by destruct Hq.
  - by apply dir_at_remove_node_above.
  - destruct Hq. by exists k.
  - destruct Hc as [es Hes]. exists es. by rewrite lookup_remove_node_diverge.
Qed.

Lemma file_at_remove_node (q c : list string) (r : node) (d : string) :
  ¬ (q `prefix_of` c) ->
  lookup_node c r = Some (File d) -> lookup_node c (remove_node q r) = Some (File d).
Proof.
  intros Hq Hc.
  destruct (location_cases c q) as [->|[(k & ? & ->)|[(k & ? & ->)|(l & a & b & c' & q' & ? & -> & ->)]]].
  - by destruct Hq.
  - clear Hq. revert r Hc.
    induction c as [|x c IH]; intros r Hc.
    + simpl in *. injection Hc as ->. by destruct k.
    + rewrite <- app_comm_cons. destruct r as [|es']; [done|].
      rewrite remove_node_deep by (by destruct c, k).
      simpl in Hc.
      destruct (find_entry x es') as [ch|] eqn:E; [|done].
      simpl. rewrite find_put_eq. by apply IH.
  - destruct Hq. by exists k.
  - by rewrite lookup_remove_node_diverge.
Qed.

(** *** The path walk *)

Lemma walk_app (r : node) (cur l1 l2 : list string) :
  walk r cur (l1 ++ l2)
  = match walk r cur l1 with Ok p => walk r p l2 | Err e => Err e end.
Proof.
  revert cur. induction l1 as [|e l1 IH]; intros cur; simpl.
  - by destruct l2.
  - destruct (lookup_node cur r) as [[d|es]|]; [done| |done].
    repeat case_decide; apply IH.
Qed.

Lemma walk_plain (r : node) (cur : list string) (b : string) :
  plain b = true ->
  walk r cur [b]
  = match lookup_node cur r with
    | Some (Dir _) => Ok (cur ++ [b])
    | Some (File _) => Err ENOTDIR
    | None => Err ENOENT
    end.
Proof.
  intros Hp. destruct (plain_inv _ Hp) as (H0 & H1 & H2). simpl.
  destruct (lookup_node cur r) as [[d|es]|]; [done| |done].
  destruct (decide (b = "" ∨ b = ".")) as [[?|?]|_]; [done..|].
  by destruct (decide (b = "..")).
Qed.

(** A walk that succeeds goes the same way in a tree with more
    directories. *)
Lemma walk_mono (r r' : node) (cur l p : list string) :
  (∀ c, dir_at c r -> dir_at c r') ->
  walk r cur l = Ok p -> walk r' cur l = Ok p.
Proof.
  intros Hd. revert cur. induction l as [|e l IH]; intros cur; simpl; [done|].
  destruct (lookup_node cur r) as [[d|es]|] eqn:E; [done| |done].
  destruct (Hd cur) as [es' ->]; [by exists es|].
  repeat case_decide; apply IH.
Qed.

Lemma keeps_dirs_refl (fs : filesystem) : keeps_dirs fs fs.
Proof. by split. Qed.

Lemma keeps_dirs_trans (fs1 fs2 fs3 : filesystem) :
  keeps_dirs fs1 fs2 -> keeps_dirs fs2 fs3 -> keeps_dirs fs1 fs3.
Proof. intros [E1 H1] [E2 H2]. split; [congruence | auto]. Qed.

Lemma keeps_files_refl (but : list string -> Prop) (fs : filesystem) :
  keeps_files but fs fs.
Proof. by intros c d _ H. Qed.

Lemma keeps_files_trans (b1 b2 : list string -> Prop) (fs1 fs2 fs3 : filesystem) :
  keeps_files b1 fs1 fs2 -> keeps_files b2 fs2 fs3 ->
  keeps_files (λ c, b1 c ∨ b2 c) fs1 fs3.
Proof.
  intros H1 H2 c d Hc Hf. apply H2; [tauto|]. apply H1; [tauto | done].
Qed.

Lemma keeps_files_weaken (b1 b2 : list string -> Prop) (fs fs' : filesystem) :
  (∀ c, b1 c -> b2 c) -> keeps_files b1 fs fs' -> keeps_files b2 fs fs'.
Proof. intros Hb H c d Hc. apply H. auto. Qed.

Lemma start_of_keeps (fs fs' : filesystem) (path : string) :
  cwd fs' = cwd fs -> start_of fs' path = start_of fs path.
Proof. intros E. unfold start_of. by rewrite E. Qed.

(** *** Resolving path names *)

Lemma namei_parent_inv (fs : filesystem) (path : string) (p : list string) (b : string) :
  namei_parent fs path = Ok (p, b) ->
  path ≠ ""
  ∧ walk (root fs) (start_of fs path) (removelast (split_path path)) = Ok p
  ∧ dir_at p (root fs) ∧ b = base path.
Proof.
  unfold namei_parent. case_decide; [done|].
  destruct (walk _ _ _) as [p'|e]; [|done].
  destruct (lookup_node p' (root fs)) as [[d|es]|] eqn:E; [done| |done].
  intros [= <- <-]. repeat split; try done. by exists es.
Qed.

Lemma namei_parent_intro (fs : filesystem) (path : string) (p : list string) :
  path ≠ "" ->
  walk (root fs) (start_of fs path) (removelast (split_path path)) = Ok p ->
  dir_at p (root fs) ->
  namei_parent fs path = Ok (p, base path).
Proof.
  intros Hne Hw [es Hes]. unfold namei_parent. case_decide; [done|].
  by rewrite Hw, Hes.
Qed.

Lemma namei_parent_mono (fs fs' : filesystem) (path : string)
    (p : list string) (b : string) :
  keeps_dirs fs fs' ->
  namei_parent fs path = Ok (p, b) -> namei_parent fs' path = Ok (p, b).
Proof.
  intros [Ec Hd] H. apply namei_parent_inv in H as (Hne & Hw & Hp & ->).
  apply namei_parent_intro; [done| |by apply Hd].
  rewrite (start_of_keeps fs fs') by done. by apply (walk_mono (root fs)).
Qed.

(** A suffix without separator changes the last element only. *)
Lemma namei_parent_suffix (fs : filesystem) (path t : string) :
  path ≠ "" -> no_sep t = true ->
  namei_parent fs (path +:+ t)
  = match namei_parent fs path with
    | Ok (p, b) => Ok (p, b +:+ t)
    | Err e => Err e
    end.
Proof.
  intros Hne Ht. unfold namei_parent.
  case_decide as E1; [by apply append_eq_nil in E1 as [? _]|].
  case_decide; [done|].
  assert (start_of fs (path +:+ t) = start_of fs path) as ->.
  { unfold start_of. by rewrite is_rooted_append. }
  rewrite split_path_suffix by done. rewrite removelast_last, List.last_last.
  destruct (walk _ _ _) as [p|e]; [|done].
  by destruct (lookup_node p (root fs)) as [[d|es]|].
Qed.

(** A path that ends in a plain name resolves through its directory. *)
Lemma namei_plain (fs : filesystem) (path : string) :
  plain (base path) = true ->
  namei fs path
  = match namei_parent fs path with
    | Err e => Err e
    | Ok (p, b) =>
        match lookup_node (p ++ [b]) (root fs) with
        | Some n => Ok (p ++ [b], n)
        | None => Err ENOENT
        end
    end.
Proof.
  intros Hp. unfold namei, namei_parent. case_decide; [done|].
  rewrite (split_path_base path) at 1. rewrite walk_app.
  destruct (walk _ _ (removelast _)) as [p|e]; [|done].
  rewrite walk_plain by done.
  by destruct (lookup_node p (root fs)) as [[d|es]|].
Qed.

(** Whatever the last element is, a path whose directory resolves is
    found or does not exist. *)
Lemma namei_of_parent (fs : filesystem) (path : string) (p : list string) (b : string) :
  namei_parent fs path = Ok (p, b) ->
  (∃ q n, namei fs path = Ok (q, n)) ∨ namei fs path = Err ENOENT.
Proof.
  intros H. apply namei_parent_inv in H as (Hne & Hw & [es Hes] & ->).
  unfold namei. case_decide; [done|].
  rewrite (split_path_base path). rewrite walk_app, Hw. simpl. rewrite Hes.
  repeat case_decide.
  - destruct (lookup_node p (root fs)); [left; eauto | by right].
  - destruct (lookup_node (removelast p) (root fs)); [left; eauto | by right].
  - destruct (lookup_node (p ++ [base path]) (root fs)); [left; eauto | by right].
Qed.

(** *** The calls of [os] and [ioutil] *)

Lemma Stat_inv (fs : filesystem) (path : string) (fi : FileInfo) :
  Stat fs path = Ok fi ->
  ∃ q n, namei fs path = Ok (q, n) ∧ Mode fi = mode_of n.
Proof.
  unfold Stat. destruct (namei fs path) as [[q n]|e]; [|done].
  intros [= <-]. by exists q, n.
Qed.

Lemma Stat_err (fs : filesystem) (path : string) (e : errno) :
  Stat fs path = Err e <-> namei fs path = Err e.
Proof.
  unfold Stat. destruct (namei fs path) as [[q n]|e']; [done|].
  split; by intros [= ->].
Qed.

Lemma ReadFile_inv (fs : filesystem) (path : string) (d : string) :
  ReadFile fs path = Ok d <-> ∃ q, namei fs path = Ok (q, File d).
Proof.
  unfold ReadFile. destruct (namei fs path) as [[q [d'|es]]|e].
  - split; [intros [= ->]; by exists q | by intros [? [= _ ->]]].
  - split; [done | by intros [? [=]]].
  - split; [done | by intros [? [=]]].
Qed.

Lemma file_not_above (q c : list string) (r : node) (d : string) :
  lookup_node q r = Some (File d) -> dir_at c r -> ¬ (q `prefix_of` c).
Proof.
  intros Hq [es Hes] [k ->]. rewrite lookup_node_app, Hq in Hes. simpl in Hes.
  destruct k; [done|]. by rewrite lookup_node_file in Hes.
Qed.

Lemma Mkdir_spec (fs fs' : filesystem) (path : string) :
  Mkdir fs path = Ok fs' -> keeps_dirs fs fs' ∧ keeps_files nowhere fs fs'.
Proof.
  unfold Mkdir. destruct (namei_parent fs path) as [[p b]|e]; [|done].
  destruct (plain b); [|done].
  destruct (lookup_node (p ++ [b]) (root fs)) eqn:E; [done|].
  intros [= <-]. split.
  - split; [done|]. intros c Hc. simpl. apply dir_at_set_node; [|done].
    intros [es Hes]. congruence.
  - intros c d _ Hc. simpl. apply file_at_set_node; [| |done].
    + intros [es Hes]. congruence.
    + intros ->. congruence.
Qed.

Lemma MkdirAll_elems_unfold (fs : filesystem) (relems : list string) :
  MkdirAll_elems fs relems
  = let path := join_path (rev relems) in
    match Stat fs path with
    | Ok fi => if IsDir (Mode fi) then Ok fs else Err ENOTDIR
    | Err _ =>
        match
          match relems with
          | [] => Ok fs
          | _ :: parent =>
              if decide (join_path (rev parent) = "") then Ok fs
              else MkdirAll_elems fs parent
          end
        with
        | Err e => Err e
        | Ok fs1 =>
            match Mkdir fs1 path with
            | Ok fs2 => Ok fs2
            | Err e =>
                match Stat fs1 path with
                | Ok fi => if IsDir (Mode fi) then Ok fs1 else Err e
                | Err _ => Err e
                end
            end
        end
    end.
Proof. by destruct relems. Qed.

Lemma MkdirAll_elems_spec (relems : list string) (fs fs' : filesystem) :
  MkdirAll_elems fs relems = Ok fs' ->
  keeps_dirs fs fs' ∧ keeps_files nowhere fs fs'.
Proof.
  revert fs fs'. induction relems as [|e parent IH]; intros fs fs';
    rewrite MkdirAll_elems_unfold; cbv zeta;
    set (path := join_path (rev _)); clearbody path.
  all: destruct (Stat fs path) as [fi|];
    [destruct (IsDir (Mode fi)); [|done]; intros [= <-];
     split; [apply keeps_dirs_refl | apply keeps_files_refl] |].
  - destruct (Mkdir fs path) as [fs2|] eqn:E.
    + intros [= <-]. by eapply Mkdir_spec.
    + done.
  - assert (Hmade : ∀ fs1,
      (if decide (join_path (rev parent) = "") then Ok fs
       else MkdirAll_elems fs parent) = Ok fs1 ->
      keeps_dirs fs fs1 ∧ keeps_files nowhere fs fs1).
    { intros fs1. case_decide.
      - intros [= <-]. split; [apply keeps_dirs_refl | apply keeps_files_refl].
      - apply IH. }
    destruct (if decide (join_path (rev parent) = "") then Ok fs
              else MkdirAll_elems fs parent) as [fs1|] eqn:E1; [|done].
    destruct (Hmade fs1 eq_refl) as [Hd1 Hf1].
    destruct (Mkdir fs1 path) as [fs2|] eqn:E2.
    + intros [= <-]. destruct (Mkdir_spec _ _ _ E2) as [Hd2 Hf2].
      split; [by eapply keeps_dirs_trans|].
      eapply keeps_files_weaken; [|by eapply keeps_files_trans].
      unfold nowhere. tauto.
    + destruct (Stat fs1 path) as [fi|]; [|done].
      destruct (IsDir (Mode fi)); [|done]. by intros [= <-].
Qed.

Lemma MkdirAll_spec (fs fs' : filesystem) (path : string) :
  MkdirAll fs path = Ok fs' -> keeps_dirs fs fs' ∧ keeps_files nowhere fs fs'.
Proof. apply MkdirAll_elems_spec. Qed.

Lemma WriteFile_spec (fs fs' : filesystem) (path data : string) :
  WriteFile fs path data = Ok fs' ->
  ∃ p b, namei_parent fs path = Ok (p, b) ∧ plain b = true
    ∧ keeps_dirs fs fs'
    ∧ keeps_files (λ c, c = p ++ [b]) fs fs'
    ∧ lookup_node (p ++ [b]) (root fs') = Some (File data).
Proof.
  unfold WriteFile. destruct (namei_parent fs path) as [[p b]|e] eqn:Ep; [|done].
  destruct (plain b) eqn:Hb; [|done].
  assert (Hq : ¬ dir_at (p ++ [b]) (root fs) ->
    ∀ fs2, fs2 = with_root fs (set_node (p ++ [b]) (File data) (root fs)) ->
    keeps_dirs fs fs2 ∧ keeps_files (λ c, c = p ++ [b]) fs fs2
    ∧ lookup_node (p ++ [b]) (root fs2) = Some (File data)).
  { intros Hnd fs2 ->. split; [|split].
    - split; [done|]. intros c Hc. by apply dir_at_set_node.
    - intros c d Hc Hf. by apply file_at_set_node.
    - apply lookup_set_node_eq. by apply namei_parent_inv in Ep as (_ & _ & ? & _). }
  destruct (lookup_node (p ++ [b]) (root fs)) as [[d|es]|] eqn:E; [|done|].
  - intros [= <-]. exists p, b. split; [done|]. split; [done|].
    apply Hq; [|done]. intros [es Hes]. congruence.
  - intros [= <-]. exists p, b. split; [done|]. split; [done|].
    apply Hq; [|done]. intros [es Hes]. congruence.
Qed.

(** Renaming a file onto a sibling name. *)
Lemma Rename_sibling_spec (fs fs' : filesystem) (oldpath newpath : string)
    (p : list string) (bo bn data : string) :
  namei_parent fs oldpath = Ok (p, bo) ->
  namei_parent fs newpath = Ok (p, bn) ->
  bo ≠ bn ->
  lookup_node (p ++ [bo]) (root fs) = Some (File data) ->
  Rename fs oldpath newpath = Ok fs' ->
  keeps_dirs fs fs'
  ∧ keeps_files (λ c, c = p ++ [bo] ∨ c = p ++ [bn]) fs fs'
  ∧ lookup_node (p ++ [bn]) (root fs') = Some (File data).
Proof.
  intros Ho Hn Hne Hsrc. unfold Rename. rewrite Ho, Hn, Hsrc.
  destruct (plain bo); [|done]. destruct (plain bn); [|done]. simpl.
  case_decide as E; [by apply app_inj_tail in E as [_ ?]|].
  assert (Hdiv : lookup_node (p ++ [bn]) (remove_node (p ++ [bo]) (root fs))
                 = lookup_node (p ++ [bn]) (root fs)).
  { by apply lookup_remove_node_diverge. }
  assert (Hdir : ∀ c, dir_at c (root fs) ->
                      dir_at c (remove_node (p ++ [bo]) (root fs))).
  { intros c Hc. apply dir_at_remove_node; [|done]. by eapply file_not_above. }
  assert (Hmove : ¬ dir_at (p ++ [bn]) (root fs) ->
    ∀ fs2, fs2 = with_root fs (set_node (p ++ [bn]) (File data)
                                 (remove_node (p ++ [bo]) (root fs))) ->
    keeps_dirs fs fs2
    ∧ keeps_files (λ c, c = p ++ [bo] ∨ c = p ++ [bn]) fs fs2
    ∧ lookup_node (p ++ [bn]) (root fs2) = Some (File data)).
  { intros Hnd fs2 ->.
    assert (Hnd' : ¬ dir_at (p ++ [bn]) (remove_node (p ++ [bo]) (root fs))).
    { intros [es Hes]. apply Hnd. exists es. by rewrite <- Hdiv. }
    split; [|split].
    - split; [done|]. intros c Hc. simpl. apply dir_at_set_node; auto.
    - intros c d Hc Hf. simpl. apply file_at_set_node; [done|tauto|].
      apply file_at_remove_node; [|done].
      intros [k ->]. rewrite lookup_node_app, Hsrc in Hf. simpl in Hf.
      destruct k as [|x k]; [|by rewrite lookup_node_file in Hf].
      rewrite app_nil_r in Hc. tauto.
    - simpl. apply lookup_set_node_eq. apply Hdir.
      by apply namei_parent_inv in Hn as (_ & _ & ? & _). }
  destruct (lookup_node (p ++ [bn]) (root fs)) as [[d|es]|] eqn:En; [|done|].
  - intros [= <-]. apply Hmove; [|done]. intros [es Hes]. congruence.
  - intros [= <-]. apply Hmove; [|done]. intros [es Hes]. congruence.
Qed.

Lemma namei_parent_of_namei (fs : filesystem) (path : string)
    (q : list string) (n : node) :
  namei fs path = Ok (q, n) -> ∃ p, namei_parent fs path = Ok (p, base path).
Proof.
  unfold namei. case_decide as Hne; [done|].
  rewrite (split_path_base path) at 1. rewrite walk_app.
  destruct (walk _ _ (removelast _)) as [p|e] eqn:Hw; [|done].
  intros H. exists p. apply namei_parent_intro; [done|done|].
  destruct (lookup_node p (root fs)) as [[d|es]|] eqn:E.
  - simpl in H. by rewrite E in H.
  - by exists es.
  - simpl in H. by rewrite E in H.
Qed.

(** A walk that succeeds goes the same way or meets a missing directory in
    a tree where directories have only gone. *)
Lemma walk_shrink (r r' : node) (cur l p : list string) :
  (∀ c, dir_at c r -> dir_at c r' ∨ lookup_node c r' = None) ->
  walk r cur l = Ok p ->
  walk r' cur l = Ok p ∨ walk r' cur l = Err ENOENT.
Proof.
  intros Hd. revert cur. induction l as [|e l IH]; intros cur; simpl; [by left|].
  destruct (lookup_node cur r) as [[d|es]|] eqn:E; [done| |done].
  destruct (Hd cur) as [[es' ->]| ->]; [by exists es| |by right].
  repeat case_decide; apply IH.
Qed.

Lemma dir_at_remove_node_cases (q c : list string) (r : node) :
  q ≠ [] -> dir_at c r ->
  dir_at c (remove_node q r) ∨ lookup_node c (remove_node q r) = None.
Proof.
  intros Hq Hc. destruct (decide (q `prefix_of` c)) as [[k ->]|Hn].
  - right. by apply lookup_remove_node_below.
  - left. by apply dir_at_remove_node.
Qed.

Lemma remove_node_keeps_files (fs : filesystem) (q : list string) :
  keeps_files (λ c, q `prefix_of` c) fs (with_root fs (remove_node q (root fs))).
Proof. intros c d Hc Hf. by apply file_at_remove_node. Qed.

(** After the entry that a path names is removed, the path does not
    exist. *)
Lemma Stat_removed (fs : filesystem) (path : string) (p : list string) (b : string) :
  plain (base path) = true ->
  namei_parent fs path = Ok (p, b) ->
  Stat (with_root fs (remove_node (p ++ [b]) (root fs))) path = Err ENOENT.
Proof.
  intros Hp H. apply namei_parent_inv in H as (Hne & Hw & Hdir & ->).
  apply Stat_err. unfold namei. case_decide; [done|].
  rewrite (split_path_base path) at 1. rewrite walk_app.
  change (start_of (with_root fs _) path) with (start_of fs path). simpl root.
  set (r' := remove_node (p ++ [base path]) (root fs)).
  assert (Hq : p ++ [base path] ≠ []) by (by destruct p).
  destruct (walk_shrink (root fs) r' _ _ _
              (λ c, dir_at_remove_node_cases _ c _ Hq) Hw) as [-> | ->]; [|done].
  rewrite walk_plain by done.
  destruct (dir_at_remove_node_above p [base path] (root fs)) as [es Hes]; [done|done|].
  fold r' in Hes. rewrite Hes.
  unfold r'. rewrite <- (app_nil_r (p ++ [base path])) at 1.
  by rewrite lookup_remove_node_below.
Qed.

Lemma endsWithDot_plain (path : string) :
  plain (base path) = true -> endsWithDot path = false.
Proof.
  intros Hp. unfold endsWithDot. apply orb_false_iff. split.
  - apply bool_decide_eq_false. by intros ->.
  - apply bool_decide_eq_false. intros [_ E]. fold (base path) in E.
    by rewrite E in Hp.
Qed.

(** [RemoveAll] of a path that ends in a plain name. *)
Lemma RemoveAll_plain (fs : filesystem) (path : string) :
  plain (base path) = true ->
  RemoveAll fs path
  = match namei_parent fs path with
    | Ok (p, b) => (with_root fs (remove_node (p ++ [b]) (root fs)), None)
    | Err e => (fs, if IsNotExist e then None else Some e)
    end.
Proof.
  intros Hp. unfold RemoveAll. case_decide; [by subst path|].
  rewrite endsWithDot_plain by done.
  destruct (namei_parent fs path) as [[p b]|e] eqn:E; [|done].
  apply namei_parent_inv in E as (_ & _ & _ & ->). by rewrite Hp.
Qed.

End FSFacts.

(** ** The engine *)

Module EngineFacts.
Import Path PathFacts FS FSFacts Engine.

Lemma GetOrCreateMutex_disk (collection : string) (st : state) :
  disk (GetOrCreateMutex collection st).2 = disk st.
Proof.
  unfold GetOrCreateMutex. simpl.
  by destruct (mutexes (driver st) !! collection).
Qed.

Lemma GetOrCreateMutex_dir (collection : string) (st : state) :
  dir (driver (GetOrCreateMutex collection st).2) = dir (driver st).
Proof.
  unfold GetOrCreateMutex. simpl.
  by destruct (mutexes (driver st) !! collection).
Qed.

(** *** The registry of mutexes *)

Lemma GetOrCreateMutex_lookup (collection : string) (st : state) :
  mutexes (driver (GetOrCreateMutex collection st).2) !! collection
  = Some (GetOrCreateMutex collection st).1.
Proof.
  unfold GetOrCreateMutex. simpl.
  destruct (mutexes (driver st) !! collection) eqn:E; simpl; [done|].
  apply lookup_insert_eq.
Qed.

Lemma GetOrCreateMutex_known (collection : string) (st : state) (m : nat) :
  mutexes (driver st) !! collection = Some m ->
  GetOrCreateMutex collection st
  = (m, emit (Unlock RegistryMutex) (emit (Lock RegistryMutex) st)).
Proof. intros H. unfold GetOrCreateMutex. simpl. by rewrite H. Qed.

Lemma GetOrCreateMutex_persist (collection c : string) (st : state) (m : nat) :
  mutexes (driver st) !! c = Some m ->
  mutexes (driver (GetOrCreateMutex collection st).2) !! c = Some m.
Proof.
  intros H. unfold GetOrCreateMutex. simpl.
  destruct (mutexes (driver st) !! collection) eqn:E; simpl; [done|].
  rewrite lookup_insert_ne; [done|]. intros ->. congruence.
Qed.

Lemma GetOrCreateMutex_count (collection : string) (st : state) :
  allocated st = size (mutexes (driver st)) ->
  allocated (GetOrCreateMutex collection st).2
  = size (mutexes (driver (GetOrCreateMutex collection st).2)).
Proof.
  intros H. unfold GetOrCreateMutex. simpl.
  destruct (mutexes (driver st) !! collection) eqn:E; simpl; [done|].
  rewrite map_size_insert_None by done. by rewrite H.
Qed.

Lemma Delete_registry (collection resource : string) (st : state) :
  driver (Delete collection resource st).2
  = driver (GetOrCreateMutex collection st).2
  ∧ allocated (Delete collection resource st).2
    = allocated (GetOrCreateMutex collection st).2.
Proof.
  unfold Delete. destruct (GetOrCreateMutex collection st) as [mutex st0].
  cbn [emit driver disk snd].
  destruct (stat _ _) as [fi|]; [|done].
  destruct (IsDir _); [by destruct (RemoveAll _ _)|].
  destruct (IsRegular _); [by destruct (RemoveAll _ _)|done].
Qed.

Lemma ReadAll_state (collection : string) (st : state) :
  (ReadAll collection st).2 = st.
Proof.
  unfold ReadAll. case_decide; [done|]. by destruct (stat _ _).
Qed.

Lemma collection_dir_not_nil (st : state) (collection : string) :
  collection ≠ "" -> collection_dir st collection ≠ "".
Proof.
  intros Hc. unfold collection_dir.
  destruct (decide (dir (driver st) = "")) as [->|Hd].
  - rewrite Join_nil_l. by apply Join_not_nil.
  - by apply Join_not_nil.
Qed.

Lemma append_neq_self (a t : string) : t ≠ "" -> a +:+ t ≠ a.
Proof.
  intros Ht E. induction a as [|c a IH]; [done|].
  rewrite append_cons in E. injection E as E. auto.
Qed.

(** The final path of [Write] always ends in a plain name. *)
Lemma final_path_base (st : state) (collection resource : string) :
  collection ≠ "" ->
  final_path st collection resource ≠ ""
  ∧ base (final_path st collection resource) = base resource +:+ ".json"
  ∧ plain (base (final_path st collection resource)) = true.
Proof.
  intros Hc. unfold final_path.
  rewrite Join_2 by (by apply collection_dir_not_nil).
  assert (Hb : base (collection_dir st collection +:+ "/" +:+ resource +:+ ".json")
               = base resource +:+ ".json").
  { rewrite base_sep. by apply base_suffix. }
  assert (Hp : plain (base resource +:+ ".json") = true).
  { apply plain_ext; [apply base_no_sep | done | simpl; lia]. }
  split; [apply Clean_not_nil|].
  rewrite base_Clean by (by rewrite Hb). by rewrite Hb.
Qed.

(** A file that [fs] resolves stays where it is in a file system that
    keeps the directories and that file. *)
Lemma namei_file_keep (but : list string -> Prop) (fs fs' : filesystem)
    (path : string) (q : list string) (d : string) :
  keeps_dirs fs fs' -> keeps_files but fs fs' -> ¬ but q ->
  namei fs path = Ok (q, File d) -> namei fs' path = Ok (q, File d).
Proof.
  intros [Ec Hd] Hf Hq. unfold namei. case_decide; [done|].
  destruct (walk (root fs) _ _) as [p|] eqn:Hw; [|done].
  destruct (lookup_node p (root fs)) as [n|] eqn:E; [|done].
  intros [= -> ->].
  rewrite (start_of_keeps fs fs') by done.
  rewrite (walk_mono _ _ _ _ _ Hd Hw). by rewrite (Hf q d).
Qed.

(** *** [stat] *)

Lemma stat_cases (fs : filesystem) (path : string) (fi : FileInfo) :
  stat fs path = Ok fi ->
  (∃ q n, namei fs path = Ok (q, n) ∧ Mode fi = mode_of n)
  ∨ (namei fs path = Err ENOENT
     ∧ ∃ q n, namei fs (path +:+ ".json") = Ok (q, n) ∧ Mode fi = mode_of n).
Proof.
  unfold stat. destruct (Stat fs path) as [fi'|e] eqn:E.
  - intros [= <-]. left. by apply Stat_inv.
  - apply Stat_err in E. unfold IsNotExist. case_bool_decide as He; [|done].
    subst e. intros H. right. split; [done|]. by apply Stat_inv.
Qed.

Lemma stat_err (fs : filesystem) (path : string) (e : errno) :
  stat fs path = Err e ->
  (∃ e', namei fs path = Err e')
  ∧ (namei fs path = Err ENOENT -> namei fs (path +:+ ".json") = Err e).
Proof.
  unfold stat. destruct (Stat fs path) as [fi'|e'] eqn:E; [done|].
  apply Stat_err in E. unfold IsNotExist. case_bool_decide as He.
  - subst e'. intros H%Stat_err. split; [by exists ENOENT | done].
  - intros [= <-]. split; [by exists e' | congruence].
Qed.

(** The probe finds a path whose name with the extension exists. *)
Lemma stat_ext (fs : filesystem) (path : string) (q : list string) (n : node) :
  path ≠ "" ->
  namei fs (path +:+ ".json") = Ok (q, n) -> ∃ fi, stat fs path = Ok fi.
Proof.
  intros Hne Hn. destruct (namei_parent_of_namei _ _ _ _ Hn) as [p Hp].
  rewrite namei_parent_suffix in Hp by done.
  destruct (namei_parent fs path) as [[p' b]|] eqn:E; [|done].
  unfold stat.
  destruct (namei_of_parent _ _ _ _ E) as [(q' & n' & Hq)|Hq].
  - unfold Stat at 1. rewrite Hq. by eexists.
  - assert (Stat fs path = Err ENOENT) as -> by (by apply Stat_err).
    simpl. unfold Stat. rewrite Hn. by eexists.
Qed.

(** *** [Delete] *)

Lemma Delete_disk (collection resource : string) (st : state) :
  let path := delete_path st collection resource in
  ((Delete collection resource st).1, disk (Delete collection resource st).2)
  = match stat (disk st) path with
    | Err _ =>
        (Some (Errorf ("unable to find file or directory named "
                       +:+ Join [collection; resource] +:+ newline)), disk st)
    | Ok fi =>
        if IsDir (Mode fi) then
          (PathError <$> (RemoveAll (disk st) path).2, (RemoveAll (disk st) path).1)
        else if IsRegular (Mode fi) then
          (PathError <$> (RemoveAll (disk st) (path +:+ ".json")).2,
           (RemoveAll (disk st) (path +:+ ".json")).1)
        else (None, disk st)
    end.
Proof.
  unfold Delete, delete_path.
  pose proof (GetOrCreateMutex_disk collection st) as Hdisk.
  pose proof (GetOrCreateMutex_dir collection st) as Hdir.
  destruct (GetOrCreateMutex collection st) as [mutex st0]. simpl in Hdisk, Hdir.
  cbn [emit driver disk]. rewrite Hdir, Hdisk.
  destruct (stat (disk st) _) as [fi|e]; [|by simpl; rewrite Hdisk].
  destruct (IsDir (Mode fi)).
  - by destruct (RemoveAll (disk st) _) as [fs' e'].
  - destruct (IsRegular (Mode fi)); [|by simpl; rewrite Hdisk].
    by destruct (RemoveAll (disk st) _) as [fs' e'].
Qed.

Lemma prefix_append (s t : string) : String.prefix s (s +:+ t) = true.
Proof.
  induction s as [|c s IH]; [by destruct t|].
  rewrite append_cons. simpl. by destruct (Ascii.ascii_dec c c).
Qed.

Lemma Delete_dir_case (collection resource : string) (st : state)
    (q : list string) (es : list (string * node)) :
  let path := delete_path st collection resource in
  namei (disk st) path = Ok (q, Dir es) ->
  plain (base path) = true ->
  (Delete collection resource st).1 = None
  ∧ disk (Delete collection resource st).2
    = with_root (disk st) (remove_node q (root (disk st)))
  ∧ Stat (disk (Delete collection resource st).2) path = Err ENOENT.
Proof.
  intros path Hn Hp.
  pose proof (Delete_disk collection resource st) as H. fold path in H. simpl in H.
  unfold stat, Stat in H. rewrite Hn in H. simpl in H.
  rewrite RemoveAll_plain in H by done.
  destruct (namei_parent_of_namei _ _ _ _ Hn) as [p Hpar].
  rewrite namei_plain, Hpar in Hn by done.
  destruct (lookup_node (p ++ [base path]) (root (disk st))); [|done].
  injection Hn as <- _. rewrite Hpar in H. simpl in H.
  injection H as -> ->. repeat split. by apply Stat_removed.
Qed.

Lemma Delete_regular_case (collection resource : string) (st : state)
    (fi : FileInfo) :
  let path := delete_path st collection resource in
  stat (disk st) path = Ok fi ->
  IsRegular (Mode fi) = true ->
  ∃ p, namei_parent (disk st) (path +:+ ".json") = Ok (p, base path +:+ ".json")
    ∧ (Delete collection resource st).1 = None
    ∧ disk (Delete collection resource st).2
      = with_root (disk st)
          (remove_node (p ++ [base path +:+ ".json"]) (root (disk st)))
    ∧ Stat (disk (Delete collection resource st).2) (path +:+ ".json")
      = Err ENOENT.
Proof.
  intros path Hs Hreg.
  assert (Hplain : plain (base (path +:+ ".json")) = true).
  { rewrite base_suffix by done. apply plain_ext; [apply base_no_sep|done|simpl; lia]. }
  assert (Hpar : ∃ p, namei_parent (disk st) (path +:+ ".json")
                      = Ok (p, base path +:+ ".json")).
  { destruct (stat_cases _ _ _ Hs) as [(q & n & Hn & _)|(_ & q & n & Hn & _)].
    - destruct (namei_parent_of_namei _ _ _ _ Hn) as [p Hp]. exists p.
      rewrite namei_parent_suffix, Hp; [done| |done].
      intros E. rewrite E in Hn. by vm_compute in Hn.
    - destruct (namei_parent_of_namei _ _ _ _ Hn) as [p Hp]. exists p.
      by rewrite <- (base_suffix path ".json"). }
  destruct Hpar as [p Hpar]. exists p. split; [done|].
  pose proof (Delete_disk collection resource st) as H. fold path in H. simpl in H.
  rewrite Hs in H. destruct (Mode fi); [done| |done]. simpl in H.
  rewrite RemoveAll_plain, Hpar in H by done. simpl in H.
  injection H as -> ->. repeat split.
  rewrite <- (base_suffix path ".json") in Hpar |- * by done.
  by apply Stat_removed.
Qed.

Lemma Delete_missing_case (collection resource : string) (st : state) (e : errno) :
  stat (disk st) (delete_path st collection resource) = Err e ->
  (∃ e', (Delete collection resource st).1 = Some e' ∧ NotFoundError e' = true)
  ∧ disk (Delete collection resource st).2 = disk st.
Proof.
  intros Hs.
  pose proof (Delete_disk collection resource st) as H. cbv zeta in H.
  rewrite Hs in H. injection H as -> ->. split; [|done].
  eexists. split; [done|]. apply bool_decide_eq_true, prefix_append.
Qed.


Lemma delete_path_relative (st : state) (collection resource : string) :
  collection ≠ "" -> is_rooted collection = false ->
  delete_path st collection resource = record_path st collection resource.
Proof. apply Join_delete_path. Qed.

Lemma record_path_not_nil (st : state) (collection resource : string) :
  collection ≠ "" -> record_path st collection resource ≠ "".
Proof.
  intros Hc. unfold record_path.
  destruct (decide (dir (driver st) = "")) as [->|Hd].
  - rewrite Join_nil_l. by apply Join_not_nil.
  - by apply Join_not_nil.
Qed.

(** *** [ReadAll] *)


Section Serializer.

Context {V : Type}.
Variable MarshalIndent : V -> string -> string -> option string.
Variable Unmarshal : string -> V -> V * bool.

Lemma Write_dir (collection resource : string) (v : V) (st : state) :
  dir (driver (Write MarshalIndent collection resource v st).2) = dir (driver st).
Proof.
  unfold Write. case_decide; [done|]. case_decide; [done|].
  pose proof (GetOrCreateMutex_dir collection st) as Hdir.
  destruct (GetOrCreateMutex collection st) as [mutex st0]. simpl in Hdir.
  cbn [emit driver disk].
  destruct (MkdirAll _ _); [|done].
  destruct (MarshalIndent _ _ _); [|done].
  destruct (WriteFile _ _ _); [|done].
  by destruct (Rename _ _ _).
Qed.

Lemma Write_registry (collection resource : string) (v : V) (st : state) :
  (driver (Write MarshalIndent collection resource v st).2 = driver st
   ∧ allocated (Write MarshalIndent collection resource v st).2 = allocated st)
  ∨ (driver (Write MarshalIndent collection resource v st).2
     = driver (GetOrCreateMutex collection st).2
     ∧ allocated (Write MarshalIndent collection resource v st).2
       = allocated (GetOrCreateMutex collection st).2).
Proof.
  unfold Write. case_decide; [by left|]. case_decide; [by left|]. right.
  destruct (GetOrCreateMutex collection st) as [mutex st0].
  cbn [emit driver disk snd].
  destruct (MkdirAll _ _); [|done].
  destruct (MarshalIndent _ _ _); [|done].
  destruct (WriteFile _ _ _); [|done].
  by destruct (Rename _ _ _).
Qed.

Lemma Read_state (collection resource : string) (v : V) (st : state) :
  (Read Unmarshal collection resource v st).2 = st.
Proof.
  unfold Read. case_decide; [done|]. case_decide; [done|].
  destruct (stat _ _); [|done]. destruct (ReadFile _ _); [|done].
  by destruct (Unmarshal _ _).
Qed.

(** A call leaves the registry as it is or as [GetOrCreateMutex] makes
    it. *)
Lemma run_call_registry (k : call) (st : state) :
  (driver (run_call MarshalIndent Unmarshal k st) = driver st
   ∧ allocated (run_call MarshalIndent Unmarshal k st) = allocated st)
  ∨ ∃ c, driver (run_call MarshalIndent Unmarshal k st)
         = driver (GetOrCreateMutex c st).2
       ∧ allocated (run_call MarshalIndent Unmarshal k st)
         = allocated (GetOrCreateMutex c st).2.
Proof.
  destruct k as [c r v|c r v|c|c r|c]; simpl.
  - destruct (Write_registry c r v st) as [H|H]; [by left | right; by exists c].
  - left. by rewrite Read_state.
  - left. by rewrite ReadAll_state.
  - right. exists c. apply Delete_registry.
  - right. by exists c.
Qed.

Lemma run_registry (ks : list call) (st : state) (c : string) (m : nat) :
  mutexes (driver st) !! c = Some m ->
  mutexes (driver (run MarshalIndent Unmarshal ks st)) !! c = Some m.
Proof.
  revert st. induction ks as [|k ks IH]; intros st H; [done|].
  simpl. apply IH.
  destruct (run_call_registry k st) as [[-> _]|(c' & -> & _)]; [done|].
  by apply GetOrCreateMutex_persist.
Qed.

Lemma run_count (ks : list call) (st : state) :
  allocated st = size (mutexes (driver st)) ->
  allocated (run MarshalIndent Unmarshal ks st)
  = size (mutexes (driver (run MarshalIndent Unmarshal ks st))).
Proof.
  revert st. induction ks as [|k ks IH]; intros st H; [done|].
  simpl. apply IH.
  destruct (run_call_registry k st) as [[-> ->]|(c' & -> & ->)]; [done|].
  by apply GetOrCreateMutex_count.
Qed.

(** [Read] of a record whose file is there gives what [Unmarshal] makes of
    the bytes of the file. *)
Lemma Read_file (collection resource : string) (out : V) (st : state) (b : string) :
  collection ≠ "" -> resource ≠ "" ->
  ReadFile (disk st) (record_path st collection resource +:+ ".json") = Ok b ->
  Read Unmarshal collection resource out st
  = ((if (Unmarshal b out).2 then None else Some UnmarshalError,
      (Unmarshal b out).1), st).
Proof.
  intros Hc Hr Hf. unfold Read. case_decide; [done|]. case_decide; [done|].
  fold (record_path st collection resource).
  pose proof Hf as [q Hq]%ReadFile_inv.
  destruct (stat_ext _ _ _ _ (record_path_not_nil st _ resource Hc) Hq) as [fi ->].
  rewrite Hf. by destruct (Unmarshal b out).
Qed.

(** What a call of [Write] that passes the validation does to the disk:
    either it succeeds and the final path holds the serialized value with
    the newline, or it fails and a file at the final path is as before. *)
Lemma Write_disk (collection resource : string) (v : V) (st st' : state)
    (err : option error) :
  collection ≠ "" -> resource ≠ "" ->
  Write MarshalIndent collection resource v st = (err, st') ->
  keeps_dirs (disk st) (disk st')
  ∧ ((err = None ∧ ∃ b, MarshalIndent v "" tab = Some b
        ∧ ReadFile (disk st') (final_path st collection resource)
          = Ok (b +:+ newline))
     ∨ (err ≠ None ∧ ∀ data,
          ReadFile (disk st) (final_path st collection resource) = Ok data ->
          ReadFile (disk st') (final_path st collection resource) = Ok data)).
Proof.
  clear Unmarshal. intros Hc Hr. unfold Write. case_decide; [done|]. case_decide; [done|].
  pose proof (GetOrCreateMutex_disk collection st) as Hdisk.
  pose proof (GetOrCreateMutex_dir collection st) as Hdir.
  destruct (GetOrCreateMutex collection st) as [mutex st0]. simpl in Hdisk, Hdir.
  cbn [emit driver disk]. rewrite Hdir, Hdisk.
  fold (collection_dir st collection). fold (final_path st collection resource).
  destruct (final_path_base st collection resource Hc) as (Hne & Hbase & Hplain).
  set (fnl := final_path st collection resource) in *.
  assert (Hkeep : ∀ fs', keeps_dirs (disk st) fs' ->
            keeps_files nowhere (disk st) fs' ->
            ∀ data, ReadFile (disk st) fnl = Ok data -> ReadFile fs' fnl = Ok data).
  { intros fs' Hd Hf data [q Hq]%ReadFile_inv. apply ReadFile_inv. exists q.
    eapply namei_file_keep; [done|done| |done]. unfold nowhere; tauto. }
  destruct (MkdirAll (disk st) _) as [fs1|e] eqn:Emk.
  2:{ intros [= <- <-]. simpl. rewrite ?Hdisk. split; [apply keeps_dirs_refl|]. right. by split. }
  apply MkdirAll_spec in Emk as [Hd1 Hf1].
  destruct (MarshalIndent v "" tab) as [b|] eqn:Em.
  2:{ intros [= <- <-]. simpl. rewrite ?Hdisk. split; [done|]. right. split; [done|].
      by apply Hkeep. }
  destruct (WriteFile fs1 _ _) as [fs2|e] eqn:Ew.
  2:{ intros [= <- <-]. simpl. rewrite ?Hdisk. split; [done|]. right. split; [done|].
      by apply Hkeep. }
  apply WriteFile_spec in Ew as (p & bt & Hpt & Hbt & Hd2 & Hf2 & Htmp).
  rewrite namei_parent_suffix in Hpt by done.
  destruct (namei_parent fs1 fnl) as [[p' bn]|] eqn:Hpn; [|done].
  injection Hpt as -> <-.
  assert (bn = base fnl) as Ebn by (by apply namei_parent_inv in Hpn as (_ & _ & _ & ?)).
  assert (Hne' : bn +:+ ".tmp" ≠ bn) by (by apply append_neq_self).
  assert (Hpn2 : namei_parent fs2 fnl = Ok (p, bn)) by (by eapply namei_parent_mono).
  assert (Hpt2 : namei_parent fs2 (fnl +:+ ".tmp") = Ok (p, bn +:+ ".tmp")).
  { rewrite namei_parent_suffix by done. by rewrite Hpn2. }
  destruct (Rename fs2 _ _) as [fs3|e] eqn:Er.
  - intros [= <- <-]. simpl. rewrite ?Hdisk.
    destruct (Rename_sibling_spec _ _ _ _ _ _ _ _ Hpt2 Hpn2 Hne' Htmp Er)
      as (Hd3 & Hf3 & Hfin).
    split; [eauto using keeps_dirs_trans|]. left. split; [done|].
    exists b. split; [done|]. apply ReadFile_inv. exists (p ++ [bn]).
    rewrite namei_plain by done.
    rewrite (namei_parent_mono _ _ _ _ _ Hd3 Hpn2). by rewrite Hfin.
  - intros [= <- <-]. simpl. rewrite ?Hdisk. split; [eauto using keeps_dirs_trans|].
    right. split; [done|].
    intros data [q Hq]%ReadFile_inv. apply ReadFile_inv. exists q.
    assert (Hq1 : namei fs1 fnl = Ok (q, File data)).
    { eapply namei_file_keep; [done|done| |done]. unfold nowhere; tauto. }
    eapply namei_file_keep; [done|done| |done]. simpl.
    rewrite namei_plain, Hpn in Hq1 by done.
    destruct (lookup_node (p ++ [bn]) (root fs1)); [|done].
    injection Hq1 as <- _. intros E. by apply app_inj_tail in E as [_ ?].
Qed.

End Serializer.

End EngineFacts.

(** * The claims of the specification *)

Module Spec.
Import Path PathFacts FS FSFacts Engine EngineFacts.

Section Serializer.

Context {V : Type}.
Variable MarshalIndent : V -> string -> string -> option string.
Variable Unmarshal : string -> V -> V * bool.

Lemma Write_ok_names (collection resource : string) (v : V) (st st' : state) :
  Write MarshalIndent collection resource v st = (None, st') ->
  collection ≠ "" ∧ resource ≠ "".
Proof.
  unfold Write. case_decide; [done|]. by case_decide.
Qed.

(** C7: on a successful [Write] the final path
    [<root>/<collection>/<resource>.json] is a file, and its bytes are
    exactly the indented serialization of the value followed by one line
    feed. *)
Theorem Write_final_content (collection resource : string) (v : V)
    (st st' : state) :
  Write MarshalIndent collection resource v st = (None, st') ->
  ∃ b, MarshalIndent v "" tab = Some b
    ∧ ReadFile (disk st') (final_path st collection resource)
      = Ok (b +:+ newline).
Proof.
  intros H. destruct (Write_ok_names _ _ _ _ _ H) as [Hc Hr].
  destruct (Write_disk MarshalIndent _ _ _ _ _ _ Hc Hr H)
    as [_ [[_ Hb]|[? _]]]; done.
Qed.

(** C4: a [Write] that returns an error, whatever the step that failed
    (the validation, [MkdirAll], the serialization, [WriteFile] of the temp
    path, or [Rename] itself), leaves the bytes of a file at the final path
    as they were. *)
Theorem Write_failure_keeps_final (collection resource : string) (v : V)
    (st st' : state) (e : error) (data : string) :
  Write MarshalIndent collection resource v st = (Some e, st') ->
  ReadFile (disk st) (final_path st collection resource) = Ok data ->
  ReadFile (disk st') (final_path st collection resource) = Ok data.
Proof.
  intros H Hf.
  destruct (decide (collection = "")) as [Hc|Hc].
  { unfold Write in H. case_decide; [|done]. by injection H as _ <-. }
  destruct (decide (resource = "")) as [Hr|Hr].
  { unfold Write in H. case_decide; [done|]. case_decide; [|done].
    by injection H as _ <-. }
  destruct (Write_disk MarshalIndent _ _ _ _ _ _ Hc Hr H)
    as [_ [[? _]|[_ Hk]]]; [done|]. by apply Hk.
Qed.

(** C3, amended: for a non-empty collection and a resource whose last path
    element is a plain name, a successful [Write] followed by [Read] of the
    same names succeeds and yields the value written, provided the
    serializer gives the value back from the bytes it made of it. *)
Theorem Write_then_Read (collection resource : string) (v out : V)
    (st st' : state) :
  collection ≠ "" ->
  plain (base resource) = true ->
  (∀ b, MarshalIndent v "" tab = Some b ->
        Unmarshal (b +:+ newline) out = (v, true)) ->
  Write MarshalIndent collection resource v st = (None, st') ->
  Read Unmarshal collection resource out st' = ((None, v), st').
Proof.
  intros Hc Hp Hrt H.
  assert (Hr : resource ≠ "") by (by intros ->).
  destruct (Write_disk MarshalIndent _ _ _ _ _ _ Hc Hr H)
    as [_ [[_ (b & Hb & Hf)]|[? _]]]; [|done].
  unfold final_path, collection_dir in Hf.
  rewrite Join_final_path in Hf by done.
  assert (Hd : dir (driver st') = dir (driver st)).
  { pose proof (Write_dir MarshalIndent collection resource v st) as Hd.
    by rewrite H in Hd. }
  assert (Hrec : record_path st' collection resource
                 = record_path st collection resource).
  { unfold record_path. by rewrite Hd. }
  rewrite (Read_file Unmarshal collection resource out st' (b +:+ newline));
    [|done|done|by rewrite Hrec].
  by rewrite (Hrt b Hb).
Qed.


(** C8: the registry holds one lock per collection name and never drops an
    entry. The lock that [GetOrCreateMutex] returns for a name is entered
    under that name, it is still entered after any run of calls of the
    engine, and a later [GetOrCreateMutex] of the same name returns the same
    lock; every entry that was there before is still there; and the number
    of locks allocated stays the number of names entered. *)
Theorem registry_one_lock_per_name (ks : list call) (collection : string)
    (st : state) :
  let m := (GetOrCreateMutex collection st).1 in
  let st1 := (GetOrCreateMutex collection st).2 in
  let st2 := run MarshalIndent Unmarshal ks st1 in
  mutexes (driver st1) !! collection = Some m
  ∧ mutexes (driver st2) !! collection = Some m
  ∧ (GetOrCreateMutex collection st2).1 = m
  ∧ (∀ c' m', mutexes (driver st) !! c' = Some m' ->
              mutexes (driver st2) !! c' = Some m')
  ∧ (allocated st = size (mutexes (driver st)) ->
     allocated st2 = size (mutexes (driver st2))).
Proof.
  intros m st1 st2.
  assert (H1 : mutexes (driver st1) !! collection = Some m)
    by apply GetOrCreateMutex_lookup.
  assert (H2 : mutexes (driver st2) !! collection = Some m)
    by (by apply run_registry).
  split; [done|]. split; [done|]. split; [|split].
  - by rewrite (GetOrCreateMutex_known _ _ _ H2).
  - intros c' m' H. apply run_registry. by apply GetOrCreateMutex_persist.
  - intros H. apply run_count. by apply GetOrCreateMutex_count.
Qed.

(** C1, amended: [Write], [Read] and [ReadAll] called with an empty
    collection or (for [Write] and [Read]) an empty resource return a
    validation error and leave the state as it is: no file system change, no
    lock taken, no registry entry made. ([Delete] makes no such check.) *)
Theorem empty_names_rejected (collection resource : string) (v : V) (st : state) :
  collection = "" ∨ resource = "" ->
  (∃ e, Write MarshalIndent collection resource v st = (Some e, st)
        ∧ ValidationError e = true)
  ∧ (∃ e, Read Unmarshal collection resource v st = ((Some e, v), st)
          ∧ ValidationError e = true)
  ∧ (collection = "" ->
     ∃ e, ReadAll collection st = (([], Some e), st)
          ∧ ValidationError e = true).
Proof.
  intros H. unfold Write, Read, ReadAll. repeat split.
  - destruct (decide (collection = "")); [by eexists|].
    destruct (decide (resource = "")); [by eexists|]. by destruct H.
  - destruct (decide (collection = "")); [by eexists|].
    destruct (decide (resource = "")); [by eexists|]. by destruct H.
  - intros ->. by eexists.
Qed.

End Serializer.



(** C10: when the collection directory does not exist but a regular file of
    that name with the extension [.json] does, [ReadAll] returns no records
    and no error. *)
Theorem ReadAll_probe_fallback (collection : string) (st : state) (fi : FileInfo) :
  collection ≠ "" ->
  Stat (disk st) (collection_dir st collection) = Err ENOENT ->
  Stat (disk st) (collection_dir st collection +:+ ".json") = Ok fi ->
  IsRegular (Mode fi) = true ->
  ReadAll collection st = (([], None), st).
Proof.
  intros Hc H1 H2 _. unfold ReadAll. case_decide; [done|].
  fold (collection_dir st collection).
  unfold stat. rewrite H1. simpl. rewrite H2.
  apply Stat_err in H1. unfold ReadDir. by rewrite H1.
Qed.

(** C5, amended: [Delete] goes by what the probe [stat] resolves. When the
    path itself is a directory and ends in a plain name, the directory goes
    with everything below it, and no other file changes; when the probe
    resolves to a regular file, the entry [<path>.json] goes and no other
    file changes; when nothing resolves, the error is a not-found error and
    the disk is as before. *)
Theorem Delete_dispatch (collection resource : string) (st : state) :
  let path := delete_path st collection resource in
  let err := (Delete collection resource st).1 in
  let fs' := disk (Delete collection resource st).2 in
  (∀ q es, namei (disk st) path = Ok (q, Dir es) -> plain (base path) = true ->
     err = None ∧ Stat fs' path = Err ENOENT
     ∧ keeps_files (λ c, q `prefix_of` c) (disk st) fs')
  ∧ (∀ fi, stat (disk st) path = Ok fi -> IsRegular (Mode fi) = true ->
     err = None ∧ Stat fs' (path +:+ ".json") = Err ENOENT
     ∧ ∃ p, namei_parent (disk st) (path +:+ ".json")
            = Ok (p, base path +:+ ".json")
          ∧ keeps_files (λ c, (p ++ [base path +:+ ".json"]) `prefix_of` c)
              (disk st) fs')
  ∧ (∀ e, stat (disk st) path = Err e ->
     (∃ e', err = Some e' ∧ NotFoundError e' = true) ∧ fs' = disk st).
Proof.
  intros path err fs'. subst path err fs'. split; [|split].
  - intros q es Hn Hp.
    destruct (Delete_dir_case collection resource st q es Hn Hp) as (He & Hd & Hs).
    split; [done|]. split; [done|]. rewrite Hd. apply remove_node_keeps_files.
  - intros fi Hs Hreg.
    destruct (Delete_regular_case collection resource st fi Hs Hreg)
      as (p & Hp & He & Hd & Hst).
    split; [done|]. split; [done|]. exists p. split; [done|].
    rewrite Hd. apply remove_node_keeps_files.
  - intros e Hs. by apply (Delete_missing_case collection resource st e).
Qed.


(** Instances on the sample states. *)

Lemma Write_final_content_witness :
  Write Sample.MarshalIndent "users" "John" (Some "{}") Sample.fresh
  = (None, Sample.stored)
  ∧ ∃ b, Sample.MarshalIndent (Some "{}") "" tab = Some b
      ∧ ReadFile (disk Sample.stored) (final_path Sample.fresh "users" "John")
        = Ok (b +:+ newline).
Proof.
  split; [by vm_compute|].
  apply (Write_final_content Sample.MarshalIndent "users" "John" (Some "{}")
           Sample.fresh Sample.stored).
  by vm_compute.
Defined.

Lemma Write_failure_keeps_final_witness :
  Write Sample.MarshalIndent "users" "John" None Sample.stored
  = (Some MarshalError,
     (Write Sample.MarshalIndent "users" "John" None Sample.stored).2)
  ∧ ReadFile (disk (Write Sample.MarshalIndent "users" "John" None Sample.stored).2)
      (final_path Sample.stored "users" "John")
    = Ok ("{}" +:+ newline).
Proof.
  split; [by vm_compute|].
  apply (Write_failure_keeps_final Sample.MarshalIndent "users" "John" None
           Sample.stored _ MarshalError).
  - by vm_compute.
  - by vm_compute.
Defined.

Lemma Write_then_Read_witness :
  Read Sample.Unmarshal "users" "John" None Sample.stored
  = ((None, Some "{}"), Sample.stored).
Proof.
  apply (Write_then_Read Sample.MarshalIndent Sample.Unmarshal
           "users" "John" (Some "{}") None Sample.fresh Sample.stored).
  - done.
  - by vm_compute.
  - intros b [= <-]. by vm_compute.
  - by vm_compute.
Defined.

(** C3 as stated fails: with the resource [..], [Write] succeeds (it makes
    the file [...json] in the collection) and [Read] of the same names does
    not find the record (it looks for [db.json]), although the serializer
    reads its own output back. *)
Lemma Write_then_Read_dotdot :
  (Write Sample.MarshalIndent "users" ".." (Some "{}") Sample.fresh).1 = None
  ∧ Sample.Unmarshal ("{}" +:+ newline) None = (Some "{}", true)
  ∧ (Read Sample.Unmarshal "users" ".." None
       (Write Sample.MarshalIndent "users" ".." (Some "{}") Sample.fresh).2).1
    = (Some (PathError ENOENT), None).
Proof. by vm_compute. Qed.

Lemma empty_names_rejected_witness :
  (∃ e, Write Sample.MarshalIndent "" "John" (Some "{}") Sample.stored
        = (Some e, Sample.stored) ∧ ValidationError e = true)
  ∧ (∃ e, Read Sample.Unmarshal "" "John" (Some "{}") Sample.stored
          = ((Some e, Some "{}"), Sample.stored) ∧ ValidationError e = true)
  ∧ ("" = "" ->
     ∃ e, ReadAll "" Sample.stored = (([], Some e), Sample.stored)
          ∧ ValidationError e = true).
Proof.
  apply (empty_names_rejected Sample.MarshalIndent Sample.Unmarshal
           "" "John" (Some "{}") Sample.stored).
  by left.
Defined.

(** C1 as stated fails for [Delete]: with an empty resource it takes the
    lock of the collection and removes the collection directory with the
    record in it, and returns no error. *)
Lemma Delete_empty_resource_not_rejected :
  ReadFile (disk Sample.stored) "db/users/John.json" = Ok ("{}" +:+ newline)
  ∧ (Delete "users" "" Sample.stored).1 = None
  ∧ Stat (disk (Delete "users" "" Sample.stored).2) "db/users" = Err ENOENT
  ∧ events (Delete "users" "" Sample.stored).2
    = events Sample.stored
      ++ [Lock RegistryMutex; Unlock RegistryMutex;
          Lock (CollectionMutex 0); Unlock (CollectionMutex 0)].
Proof. by vm_compute. Qed.



Lemma ReadAll_probe_fallback_witness :
  ReadAll "John" (Sample.on_disk Sample.fresh [("John.json", File "x")])
  = (([], None), Sample.on_disk Sample.fresh [("John.json", File "x")]).
Proof.
  apply (ReadAll_probe_fallback "John"
           (Sample.on_disk Sample.fresh [("John.json", File "x")])
           {| Name := "John.json"; Mode := ModeRegular |}).
  - done.
  - by vm_compute.
  - by vm_compute.
  - done.
Defined.



Lemma Delete_dispatch_witness :
  (Delete "users" "" Sample.stored).1 = None
  ∧ Stat (disk (Delete "users" "" Sample.stored).2) "db/users" = Err ENOENT
  ∧ keeps_files (λ c, ["home"; "db"; "users"] `prefix_of` c)
      (disk Sample.stored) (disk (Delete "users" "" Sample.stored).2).
Proof.
  apply (proj1 (Delete_dispatch "users" "" Sample.stored)
           ["home"; "db"; "users"] [("John.json", File ("{}" +:+ newline))]).
  - by vm_compute.
  - by vm_compute.
Defined.

(** C5 as stated fails when the probe resolves to a directory through the
    extension: for the directory [db/users.json], [Delete] of [users]
    returns no error and removes nothing. *)
Lemma Delete_probed_directory_stays :
  let st := Sample.on_disk Sample.fresh [("users.json", Dir [("a.json", File "1")])] in
  (∃ fi, stat (disk st) (delete_path st "" "users") = Ok fi
         ∧ IsDir (Mode fi) = true)
  ∧ (Delete "" "users" st).1 = None
  ∧ disk (Delete "" "users" st).2 = disk st.
Proof. split; [eexists|]; by vm_compute. Qed.



Lemma registry_one_lock_per_name_witness :
  let ks := [CallWrite "users" "Jim" (Some "{}"); CallDelete "users" "Jim";
             CallGetOrCreateMutex "teams"; CallReadAll "users"] in
  let m := (GetOrCreateMutex "users" Sample.fresh).1 in
  let st1 := (GetOrCreateMutex "users" Sample.fresh).2 in
  let st2 := run Sample.MarshalIndent Sample.Unmarshal ks st1 in
  mutexes (driver st1) !! "users" = Some m
  ∧ mutexes (driver st2) !! "users" = Some m
  ∧ (GetOrCreateMutex "users" st2).1 = m
  ∧ (∀ c' m', mutexes (driver Sample.fresh) !! c' = Some m' ->
              mutexes (driver st2) !! c' = Some m')
  ∧ (allocated Sample.fresh = size (mutexes (driver Sample.fresh)) ->
     allocated st2 = size (mutexes (driver st2))).
Proof.
  exact (registry_one_lock_per_name Sample.MarshalIndent Sample.Unmarshal
           [CallWrite "users" "Jim" (Some "{}"); CallDelete "users" "Jim";
            CallGetOrCreateMutex "teams"; CallReadAll "users"]
           "users" Sample.fresh).
Defined.

(** ** Scenarios on the sample states *)

(** Each step of [Write] can fail, and the record written before is still
    read: [MkdirAll] when a file stands where the collection directory is to
    be, [WriteFile] when the temp path is a directory, [Rename] when the
    final path is a directory. *)
Example Write_fails_at_MkdirAll :
  (Write Sample.MarshalIndent "users/John.json" "x" (Some "1") Sample.stored).1
  = Some (PathError ENOTDIR)
  ∧ (Read Sample.Unmarshal "users" "John" None
       (Write Sample.MarshalIndent "users/John.json" "x" (Some "1") Sample.stored).2).1
    = (None, Some "{}").
Proof. by vm_compute. Qed.

Example Write_fails_at_WriteFile :
  let st := Sample.on_disk Sample.fresh
              [("users", Dir [("John.json", File "old"); ("John.json.tmp", Dir [])])] in
  (Write Sample.MarshalIndent "users" "John" (Some "new") st).1
  = Some (PathError EISDIR)
  ∧ ReadFile (disk (Write Sample.MarshalIndent "users" "John" (Some "new") st).2)
      "db/users/John.json" = Ok "old".
Proof. by vm_compute. Qed.

Example Write_fails_at_Rename :
  let st := Sample.on_disk Sample.fresh
              [("users", Dir [("John.json", Dir [("keep", File "old")])])] in
  (Write Sample.MarshalIndent "users" "John" (Some "new") st).1
  = Some (PathError EISDIR)
  ∧ ReadFile (disk (Write Sample.MarshalIndent "users" "John" (Some "new") st).2)
      "db/users/John.json/keep" = Ok "old"
  ∧ ReadFile (disk (Write Sample.MarshalIndent "users" "John" (Some "new") st).2)
      "db/users/John.json.tmp" = Ok ("new" +:+ newline).
Proof. by vm_compute. Qed.

(** [Delete] of one record leaves its sibling; [Delete] of a name that is
    not there is a not-found error. *)
Example Delete_leaves_siblings :
  let st := (Write Sample.MarshalIndent "users" "Jim" (Some "[]") Sample.stored).2 in
  (Delete "users" "John" st).1 = None
  ∧ (ReadAll "users" (Delete "users" "John" st).2).1 = (["[]" +:+ newline], None)
  ∧ NotFoundError <$> (Delete "users" "Pam" st).1 = Some true.
Proof. by vm_compute. Qed.

(** The run of [main]: five records written into [users], and [ReadAll]
    returns the five, in the order of their file names. *)
Example main_run :
  let names := ["John"; "Jim"; "Dwight"; "Michael"; "Pam"] in
  let st := foldl (λ st name,
              (Write Sample.MarshalIndent "users" name (Some name) st).2)
              Sample.here names in
  (ReadAll "users" st).1
  = (["Dwight" +:+ newline; "Jim" +:+ newline; "John" +:+ newline;
      "Michael" +:+ newline; "Pam" +:+ newline], None).
Proof. by vm_compute. Qed.

End Spec.

(** * Further properties of the engine *)

Module Extra.
Import Path PathFacts FS FSFacts Engine EngineFacts.

(** ** Locks *)

Lemma GetOrCreateMutex_events (collection : string) (st : state) :
  events (GetOrCreateMutex collection st).2
  = events st ++ [Lock RegistryMutex; Unlock RegistryMutex].
Proof.
  unfold GetOrCreateMutex. simpl.
  destruct (mutexes (driver st) !! collection); simpl; by rewrite <- app_assoc.
Qed.

Lemma paired_app (evs1 evs2 : list event) :
  paired evs1 -> paired evs2 -> paired (evs1 ++ evs2).
Proof.
  revert evs1. fix IH 1. intros [|[l|l] [|[l'|l'] rest]]; simpl; try done.
  intros [-> H1] H2. split; [done|]. by apply IH.
Qed.

Lemma registry_ok_GetOrCreateMutex (collection : string) (st : state) :
  registry_ok st -> registry_ok (GetOrCreateMutex collection st).2.
Proof.
  intros [Hlt Hinj]. unfold GetOrCreateMutex. simpl.
  destruct (mutexes (driver st) !! collection) as [m|] eqn:E; [done|].
  split; simpl.
  - intros c m. destruct (decide (c = collection)) as [->|Hne].
    + rewrite lookup_insert_eq. intros [= <-]. lia.
    + rewrite lookup_insert_ne by done. intros H. apply Hlt in H. lia.
  - intros c1 c2 m.
    destruct (decide (c1 = collection)) as [->|H1];
      destruct (decide (c2 = collection)) as [->|H2]; [done|..].
    + rewrite lookup_insert_eq, lookup_insert_ne by done.
      intros [= <-] H. apply Hlt in H. lia.
    + rewrite lookup_insert_eq, lookup_insert_ne by done.
      intros H [= <-]. apply Hlt in H. lia.
    + rewrite !lookup_insert_ne by done. apply Hinj.
Qed.

Lemma Delete_events (collection resource : string) (st : state) :
  events (Delete collection resource st).2
  = events st ++ locked_call (GetOrCreateMutex collection st).1.
Proof.
  unfold Delete.
  pose proof (GetOrCreateMutex_events collection st) as He.
  destruct (GetOrCreateMutex collection st) as [mutex st0]. simpl in He.
  cbn [emit driver disk events fst snd].
  assert (Hev : ∀ (r : option error * state),
            events r.2 = events st0 ++ [Lock (CollectionMutex mutex)] ->
            events (let '(err, st1) := r in
                    (err, emit (Unlock (CollectionMutex mutex)) st1)).2
            = events st ++ locked_call mutex).
  { intros [err st1] Hr1. simpl in *. rewrite Hr1, He.
    by rewrite <- !app_assoc. }
  apply Hev. destruct (stat _ _) as [fi|]; [|done].
  destruct (IsDir _); [by destruct (RemoveAll _ _)|].
  destruct (IsRegular _); [by destruct (RemoveAll _ _)|done].
Qed.

(** [Delete] takes the lock of its collection whatever the names are and
    whatever the outcome: the collection is in the registry afterwards, and
    the log grows by the four events of a locked call, with both locks
    released. *)
Theorem Delete_lock_discipline (collection resource : string) (st : state) :
  let m := (GetOrCreateMutex collection st).1 in
  events (Delete collection resource st).2 = events st ++ locked_call m
  ∧ mutexes (driver (Delete collection resource st).2) !! collection = Some m.
Proof.
  intros m. split.
  - apply Delete_events.
  - rewrite (proj1 (Delete_registry collection resource st)).
    apply GetOrCreateMutex_lookup.
Qed.

(** ** [New] *)

Lemma Mkdir_Stat (fs fs' : filesystem) (path : string) :
  Mkdir fs path = Ok fs' ->
  ∃ fi, Stat fs' path = Ok fi ∧ IsDir (Mode fi) = true.
Proof.
  intros H. destruct (Mkdir_spec _ _ _ H) as [Hd _]. revert H. unfold Mkdir.
  destruct (namei_parent fs path) as [[p b]|e] eqn:Ep; [|done].
  destruct (plain b) eqn:Hb; [|done].
  destruct (lookup_node (p ++ [b]) (root fs)) eqn:E; [done|].
  intros [= <-].
  pose proof (namei_parent_mono _ _ _ _ _ Hd Ep) as Ep'.
  apply namei_parent_inv in Ep as (_ & _ & Hdir & ->).
  unfold Stat. rewrite namei_plain, Ep' by done. simpl.
  rewrite lookup_set_node_eq by done. by eexists.
Qed.

Lemma New_Stat (d : string) (fs : filesystem) (st : state) :
  New d fs = (None, st) -> ∃ fi, Stat (disk st) (Clean d) = Ok fi.
Proof.
  unfold New. destruct (Stat fs (Clean d)) as [fi|e] eqn:Es.
  - intros [= <-]. eauto.
  - destruct (Mkdir fs (Clean d)) as [fs'|e'] eqn:Em; [|done].
    intros [= <-]. simpl. destruct (Mkdir_Stat _ _ _ Em) as (fi & Hfi & _). eauto.
Qed.

(** When [New] returns no error, the cleaned path of the database resolves
    on the disk it leaves, the registry is empty, and every directory and
    file that was there before is still there. *)
Theorem New_root_exists (d : string) (fs : filesystem) (st : state) :
  New d fs = (None, st) ->
  dir (driver st) = Clean d
  ∧ mutexes (driver st) = ∅
  ∧ (∃ fi, Stat (disk st) (Clean d) = Ok fi)
  ∧ keeps_dirs fs (disk st) ∧ keeps_files nowhere fs (disk st).
Proof.
  unfold New. destruct (Stat fs (Clean d)) as [fi|e] eqn:Es.
  - intros [= <-]. simpl. repeat split; eauto. by intros c dd _.
  - destruct (Mkdir fs (Clean d)) as [fs'|e'] eqn:Em; [|done].
    intros [= <-]. simpl.
    destruct (Mkdir_Stat _ _ _ Em) as (fi & Hfi & _).
    destruct (Mkdir_spec _ _ _ Em) as [Hd Hf]. repeat split; eauto; apply Hd.
Qed.

(** [New] on the disk that a successful [New] of the same path left finds
    the database and changes nothing. *)
Theorem New_again (d : string) (fs : filesystem) (st : state) :
  New d fs = (None, st) ->
  (New d (disk st)).1 = None ∧ disk (New d (disk st)).2 = disk st.
Proof.
  intros H. destruct (New_Stat _ _ _ H) as [fi Hfi].
  unfold New. by rewrite Hfi.
Qed.

(** An error of [New] leaves the disk as it was. *)
Lemma New_error_keeps_disk (d : string) (fs : filesystem) (st : state) (e : error) :
  New d fs = (Some e, st) -> disk st = fs.
Proof.
  unfold New. destruct (Stat fs (Clean d)); [done|].
  destruct (Mkdir fs (Clean d)); [done|]. by intros [= _ <-].
Qed.

(** ** Strings *)

Lemma length_append (a b : string) :
  String.length (a +:+ b) = String.length a + String.length b.
Proof.
  induction a as [|c a IH]; [done|]. rewrite append_cons. simpl. by rewrite IH.
Qed.

Lemma append_inj_r (a b t : string) : a +:+ t = b +:+ t -> a = b.
Proof.
  revert b. induction a as [|c a IH]; intros [|c' b] E.
  - done.
  - apply (f_equal String.length) in E. rewrite !length_append in E.
    simpl in E. lia.
  - apply (f_equal String.length) in E. rewrite !length_append in E.
    simpl in E. lia.
  - rewrite !append_cons in E. injection E as -> E. f_equal. by apply IH.
Qed.

Lemma last_char_append (a t : string) :
  t ≠ "" -> last_char (a +:+ t) = last_char t.
Proof.
  intros Ht. induction a as [|c a IH]; [done|].
  rewrite append_cons. simpl. rewrite IH.
  destruct t as [|c' t]; [done|]. simpl. by destruct (last_char t).
Qed.

Lemma final_is_no_temp (a b : string) :
  a +:+ ".json" ≠ (b +:+ ".json") +:+ ".tmp".
Proof.
  intros E. apply (f_equal last_char) in E.
  by rewrite !last_char_append in E.
Qed.

Lemma join_split (s : string) : join_path (split_path s) = s.
Proof.
  induction s as [|c s IH]; [done|]. simpl.
  pose proof (split_path_not_nil s) as Hne. case_decide as Hc.
  - rewrite join_path_cons by done. rewrite IH. by subst c.
  - destruct (split_path s) as [|h t]; [done|].
    destruct t as [|h' t]; [unfold join_path in *; simpl in *; congruence|].
    rewrite join_path_cons by done. rewrite append_cons. f_equal.
    by rewrite <- join_path_cons, IH.
Qed.

(** ** [MkdirAll] *)

Lemma MkdirAll_Stat (fs fs' : filesystem) (path : string) :
  MkdirAll fs path = Ok fs' ->
  ∃ fi, Stat fs' path = Ok fi ∧ IsDir (Mode fi) = true.
Proof.
  unfold MkdirAll. rewrite MkdirAll_elems_unfold. cbv zeta.
  rewrite rev_involutive, join_split.
  destruct (Stat fs path) as [fi|] eqn:Es.
  { destruct (IsDir (Mode fi)) eqn:Ed; [|done]. intros [= <-]. eauto. }
  destruct (match rev (split_path path) with
            | [] => Ok fs
            | _ :: parent =>
                if decide (join_path (rev parent) = "") then Ok fs
                else MkdirAll_elems fs parent
            end) as [fs1|]; [|done].
  destruct (Mkdir fs1 path) as [fs2|] eqn:Em.
  - intros [= <-]. by eapply Mkdir_Stat.
  - destruct (Stat fs1 path) as [fi|] eqn:Es1; [|done].
    destruct (IsDir (Mode fi)) eqn:Ed; [|done]. intros [= <-]. eauto.
Qed.

Lemma Stat_dir_keep (fs fs' : filesystem) (path : string) (fi : FileInfo) :
  keeps_dirs fs fs' ->
  Stat fs path = Ok fi -> IsDir (Mode fi) = true ->
  ∃ fi', Stat fs' path = Ok fi' ∧ IsDir (Mode fi') = true.
Proof.
  intros [Ec Hd] Hs Hdir. apply Stat_inv in Hs as (q & n & Hn & Hm).
  destruct n as [dd|es]; [by rewrite Hm in Hdir|].
  revert Hn. unfold Stat, namei. case_decide; [done|].
  destruct (walk (root fs) _ _) as [p|] eqn:Hw; [|done].
  destruct (lookup_node p (root fs)) as [n|] eqn:E; [|done].
  intros [= -> ->].
  rewrite (start_of_keeps fs fs') by done.
  rewrite (walk_mono _ _ _ _ _ Hd Hw).
  destruct (Hd q) as [es' ->]; [by exists es|]. by eexists.
Qed.

(** ** The directory of a joined path *)

Lemma split_render_elems (rooted : bool) (out : list string) :
  kept rooted out -> out ≠ [] ->
  split_path (render rooted out) = (if rooted then [""] else []) ++ rev out.
Proof.
  intros Hk Hne.
  assert (Hs : split_path (join_path (rev out)) = rev out).
  { apply split_join.
    - intros E. apply (f_equal (@rev string)) in E. by rewrite rev_involutive in E.
    - apply Forall_rev. by eapply kept_no_sep. }
  unfold render. destruct rooted.
  - change ("/" +:+ join_path (rev out)) with ("" +:+ "/" +:+ join_path (rev out)).
    by rewrite split_path_sep, Hs.
  - destruct out; [done|]. by rewrite Hs.
Qed.

(** The directory of an entry [n] joined to a cleaned path is the node that
    the cleaned path names. *)
Lemma Clean_unfold (a : string) :
  a ≠ "" ->
  Clean a = render (is_rooted a) (clean_elems (is_rooted a) [] (split_path a)).
Proof. intros Ha. unfold Clean. by case_decide. Qed.

Lemma namei_dir_of_entry (fs : filesystem) (y n : string) (p : list string)
    (b : string) :
  plain n = true ->
  namei_parent fs (Join [Clean y; n]) = Ok (p, b) ->
  b = n ∧ ∃ es, namei fs (Clean y) = Ok (p, Dir es).
Proof.
  intros Hn. pose proof (Clean_not_nil y) as Hx.
  rewrite Join_2 by done.
  assert (Hb : base (Clean y +:+ "/" +:+ n) = n).
  { rewrite base_sep. unfold base. by rewrite split_path_no_sep by (by apply plain_no_sep). }
  intros H. pose proof H as (Hne & Hw & [es Hes] & ->)%namei_parent_inv.
  split; [rewrite base_Clean; by rewrite Hb|]. exists es.
  pose proof (kept_split (Clean y)) as Hk.
  assert (Hx' : Clean y = render (is_rooted (Clean y))
                   (clean_elems (is_rooted (Clean y)) [] (split_path (Clean y)))).
  { transitivity (Clean (Clean y)); [symmetry; apply Clean_idem|].
    by apply Clean_unfold. }
  set (R := is_rooted (Clean y)) in *.
  set (o := clean_elems R [] (split_path (Clean y))) in *.
  destruct (plain_inv _ Hn) as (H0 & H1 & H2).
  assert (Hk' : kept R (n :: o)) by (simpl; by left).
  assert (HJ : Clean (Clean y +:+ "/" +:+ n) = render R (n :: o)).
  { rewrite Clean_unfold by (intros E; by apply append_eq_nil in E as [? _]).
    rewrite is_rooted_append by done. fold R.
    rewrite split_path_sep, clean_elems_app. fold o.
    rewrite (split_path_no_sep n) by (by apply plain_no_sep). simpl.
    destruct (decide (n = "" ∨ n = ".")) as [[?|?]|_]; [done..|].
    by destruct (decide (n = "..")). }
  rewrite HJ in Hw. clear H Hne Hb HJ.
  rewrite split_render_elems in Hw by done. simpl rev in Hw.
  rewrite app_assoc, removelast_last in Hw.
  unfold start_of in Hw. rewrite is_rooted_render in Hw by done.
  unfold namei. case_decide; [done|].
  unfold start_of. fold R. rewrite Hx'.
  destruct o as [|top o'].
  - unfold render. destruct R; simpl in Hw |- *.
    + destruct (root fs) as [?|es0] eqn:E; [done|].
      injection Hw as <-. simpl in Hes. by injection Hes as ->.
    + injection Hw as <-. rewrite Hes.
      destruct (decide ("." = "" ∨ "." = ".")) as [_|[]]; [|by right].
      by rewrite Hes.
  - rewrite split_render_elems by done. by rewrite Hw, Hes.
Qed.

Lemma namei_lookup (fs : filesystem) (path : string) (q : list string) (n : node) :
  namei fs path = Ok (q, n) -> lookup_node q (root fs) = Some n.
Proof.
  unfold namei. case_decide; [done|].
  destruct (walk _ _ _) as [p|]; [|done].
  destruct (lookup_node p (root fs)) eqn:E; [|done]. by intros [= <- <-].
Qed.

(** ... and the other way round. *)
Lemma namei_parent_of_dir (fs : filesystem) (y n : string) (p : list string)
    (es : list (string * node)) :
  plain n = true ->
  namei fs (Clean y) = Ok (p, Dir es) ->
  namei_parent fs (Join [Clean y; n]) = Ok (p, n).
Proof.
  intros Hn Hes. pose proof (Clean_not_nil y) as Hx.
  rewrite Join_2 by done.
  assert (Hb : base (Clean y +:+ "/" +:+ n) = n).
  { rewrite base_sep. unfold base. by rewrite split_path_no_sep by (by apply plain_no_sep). }
  pose proof (kept_split (Clean y)) as Hk.
  assert (Hx' : Clean y = render (is_rooted (Clean y))
                   (clean_elems (is_rooted (Clean y)) [] (split_path (Clean y)))).
  { transitivity (Clean (Clean y)); [symmetry; apply Clean_idem|].
    by apply Clean_unfold. }
  set (R := is_rooted (Clean y)) in *.
  set (o := clean_elems R [] (split_path (Clean y))) in *.
  destruct (plain_inv _ Hn) as (H0 & H1 & H2).
  assert (Hk' : kept R (n :: o)) by (simpl; by left).
  assert (HJ : Clean (Clean y +:+ "/" +:+ n) = render R (n :: o)).
  { rewrite Clean_unfold by (intros E; by apply append_eq_nil in E as [? _]).
    rewrite is_rooted_append by done. fold R.
    rewrite split_path_sep, clean_elems_app. fold o.
    rewrite (split_path_no_sep n) by (by apply plain_no_sep). simpl.
    destruct (decide (n = "" ∨ n = ".")) as [[?|?]|_]; [done..|].
    by destruct (decide (n = "..")). }
  assert (Hbase : base (Clean (Clean y +:+ "/" +:+ n)) = n).
  { rewrite base_Clean; by rewrite Hb. }
  rewrite <- Hbase at 2.
  pose proof (namei_lookup _ _ _ _ Hes) as Hlp.
  apply namei_parent_intro; [apply Clean_not_nil| |by exists es].
  rewrite HJ. rewrite split_render_elems by done. simpl rev.
  rewrite app_assoc, removelast_last.
  unfold start_of. rewrite is_rooted_render by done.
  revert Hes. unfold namei. case_decide; [done|].
  unfold start_of. fold R. rewrite Hx'.
  destruct o as [|top o'].
  - unfold render. destruct R; simpl.
    + destruct (root fs) as [?|es0] eqn:E; [done|]. by intros [= <- _].
    + destruct (lookup_node (cwd fs) (root fs)) as [[?|?]|]; [done| |done].
      destruct (decide ("." = "" ∨ "." = ".")) as [_|[]]; [|by right].
      destruct (lookup_node (cwd fs) (root fs)); [|done]. by intros [= <- _].
  - rewrite split_render_elems by done.
    destruct (walk _ _ _) as [q|]; [|done].
    destruct (lookup_node q (root fs)); [|done]. by intros [= <- _].
Qed.

(** ** Calls that succeed *)

(** ... and an entry under a file has no parent directory. *)
Lemma namei_parent_of_file (fs : filesystem) (y n : string) (p : list string)
    (data : string) :
  plain n = true ->
  namei fs (Clean y) = Ok (p, File data) ->
  namei_parent fs (Join [Clean y; n]) = Err ENOTDIR.
Proof.
  intros Hn Hes. pose proof (Clean_not_nil y) as Hx.
  rewrite Join_2 by done.
  pose proof (kept_split (Clean y)) as Hk.
  assert (Hx' : Clean y = render (is_rooted (Clean y))
                   (clean_elems (is_rooted (Clean y)) [] (split_path (Clean y)))).
  { transitivity (Clean (Clean y)); [symmetry; apply Clean_idem|].
    by apply Clean_unfold. }
  set (R := is_rooted (Clean y)) in *.
  set (o := clean_elems R [] (split_path (Clean y))) in *.
  destruct (plain_inv _ Hn) as (H0 & H1 & H2).
  assert (Hk' : kept R (n :: o)) by (simpl; by left).
  assert (HJ : Clean (Clean y +:+ "/" +:+ n) = render R (n :: o)).
  { rewrite Clean_unfold by (intros E; by apply append_eq_nil in E as [? _]).
    rewrite is_rooted_append by done. fold R.
    rewrite split_path_sep, clean_elems_app. fold o.
    rewrite (split_path_no_sep n) by (by apply plain_no_sep). simpl.
    destruct (decide (n = "" ∨ n = ".")) as [[?|?]|_]; [done..|].
    by destruct (decide (n = "..")). }
  unfold namei_parent. rewrite decide_False by apply Clean_not_nil.
  rewrite HJ. rewrite split_render_elems by done. simpl rev.
  rewrite app_assoc, removelast_last.
  unfold start_of. rewrite is_rooted_render by done.
  revert Hes. unfold namei. case_decide; [done|].
  unfold start_of. fold R. rewrite Hx'.
  destruct o as [|top o'].
  - unfold render. destruct R; simpl.
    + destruct (root fs) as [?|es0] eqn:E; [done|]. by intros [= <- _].
    + destruct (lookup_node (cwd fs) (root fs)) as [[?|?]|] eqn:E; [done| |done].
      destruct (decide ("." = "" ∨ "." = ".")) as [_|[]]; [|by right].
      rewrite E. by intros [= <- _].
  - rewrite split_render_elems by done.
    destruct (walk _ _ _) as [q|]; [|done].
    destruct (lookup_node q (root fs)) as [nd|]; [|done]. by intros [= <- ->].
Qed.




Lemma Rename_sibling_gone (fs fs' : filesystem) (oldpath newpath : string)
    (p : list string) (bo bn data : string) :
  namei_parent fs oldpath = Ok (p, bo) ->
  namei_parent fs newpath = Ok (p, bn) ->
  bo ≠ bn ->
  lookup_node (p ++ [bo]) (root fs) = Some (File data) ->
  Rename fs oldpath newpath = Ok fs' ->
  lookup_node (p ++ [bo]) (root fs') = None.
Proof.
  intros Ho Hn Hne Hsrc. unfold Rename. rewrite Ho, Hn, Hsrc.
  destruct (plain bo); [|done]. destruct (plain bn); [|done]. simpl.
  case_decide as E; [by apply app_inj_tail in E as [_ ?]|].
  assert (Hgone : lookup_node (p ++ [bo])
                    (set_node (p ++ [bn]) (File data)
                       (remove_node (p ++ [bo]) (root fs))) = None).
  { rewrite (lookup_set_node_diverge p bo bn [] []) by done.
    rewrite <- (app_nil_r (p ++ [bo])) at 1.
    apply lookup_remove_node_below. by destruct p. }
  destruct (lookup_node (p ++ [bn]) (root fs)) as [[d|es]|]; [|done|];
    by intros [= <-].
Qed.


(** The parent of an entry joined to a cleaned path is that path, or has no
    name of its own (the entry stands in [/] or in the working
    directory). *)
Lemma Join_entry_parent (y n : string) :
  plain n = true ->
  join_path (removelast (split_path (Join [Clean y; n]))) = Clean y
  ∨ join_path (removelast (split_path (Join [Clean y; n]))) = "".
Proof.
  intros Hn. pose proof (Clean_not_nil y) as Hx.
  rewrite Join_2 by done.
  pose proof (kept_split (Clean y)) as Hk.
  assert (Hx' : Clean y = render (is_rooted (Clean y))
                   (clean_elems (is_rooted (Clean y)) [] (split_path (Clean y)))).
  { transitivity (Clean (Clean y)); [symmetry; apply Clean_idem|].
    by apply Clean_unfold. }
  set (R := is_rooted (Clean y)) in *.
  set (o := clean_elems R [] (split_path (Clean y))) in *.
  destruct (plain_inv _ Hn) as (H0 & H1 & H2).
  assert (Hk' : kept R (n :: o)) by (simpl; by left).
  assert (HJ : Clean (Clean y +:+ "/" +:+ n) = render R (n :: o)).
  { rewrite Clean_unfold by (intros E; by apply append_eq_nil in E as [? _]).
    rewrite is_rooted_append by done. fold R.
    rewrite split_path_sep, clean_elems_app. fold o.
    rewrite (split_path_no_sep n) by (by apply plain_no_sep). simpl.
    destruct (decide (n = "" ∨ n = ".")) as [[?|?]|_]; [done..|].
    by destruct (decide (n = "..")). }
  rewrite HJ, split_render_elems by done. simpl rev.
  rewrite app_assoc, removelast_last.
  destruct o as [|top o'].
  - right. by destruct R.
  - left. rewrite <- split_render_elems by done. rewrite join_split. by rewrite <- Hx'.
Qed.

Lemma find_entry_elem (name : string) (es : list (string * node)) (n : node) :
  find_entry name es = Some n -> name ∈ map fst es.
Proof.
  induction es as [|[x c] es IH]; simpl; [done|].
  case_decide; [subst; intros _; by left|]. intros H'. right. auto.
Qed.

Lemma elem_of_insert_sorted (x n : string) (l : list string) :
  x ∈ insert_sorted n l <-> x = n ∨ x ∈ l.
Proof.
  induction l as [|y l IH]; simpl.
  - rewrite list_elem_of_singleton, elem_of_nil. tauto.
  - destruct (String.leb n y).
    + by rewrite elem_of_cons.
    + rewrite !elem_of_cons, IH. tauto.
Qed.

Lemma elem_of_sort_names (x : string) (l : list string) :
  x ∈ sort_names l <-> x ∈ l.
Proof.
  induction l as [|y l IH]; simpl; [done|].
  rewrite elem_of_insert_sorted, elem_of_cons, IH. tauto.
Qed.

(** What a loop of [ReadAll] that ends without error has read. *)
Lemma ReadAll_loop_reads (fs : filesystem) (d : string)
    (files acc records : list string) :
  ReadAll_loop fs d files acc = (records, None) ->
  (∀ x, x ∈ acc -> x ∈ records)
  ∧ ∀ f, f ∈ files -> ∃ data, ReadFile fs (Join [d; f]) = Ok data ∧ data ∈ records.
Proof.
  revert acc. induction files as [|f files IH]; intros acc; cbn [ReadAll_loop].
  - intros [= <-]. split; [auto|]. intros f Hf. inversion Hf.
  - destruct (ReadFile fs (Join [d; f])) as [data|] eqn:E; [|done].
    intros H. destruct (IH _ H) as [Hacc Hall]. split.
    + intros x Hx. apply Hacc. apply elem_of_app. by left.
    + intros f' [->|Hf]%elem_of_cons; [|by apply Hall].
      exists data. split; [done|]. apply Hacc. apply elem_of_app. right. by left.
Qed.

Lemma collection_dir_Clean (st : state) (collection : string) :
  collection ≠ "" -> ∃ y, collection_dir st collection = Clean y.
Proof.
  intros Hc. unfold collection_dir.
  destruct (decide (dir (driver st) = "")) as [->|Hd].
  - rewrite Join_nil_l, Join_1 by done. by eexists.
  - rewrite Join_2 by done. by eexists.
Qed.

(** [MkdirAll] of an entry under a file fails: the parent is no directory. *)
Lemma MkdirAll_under_file (fs : filesystem) (y n : string) (p : list string)
    (data : string) :
  plain n = true ->
  namei fs (Clean y) = Ok (p, File data) ->
  MkdirAll fs (Join [Clean y; n]) = Err ENOTDIR.
Proof.
  intros Hn Hes.
  pose proof (namei_parent_of_file _ _ _ _ _ Hn Hes) as Hpar.
  pose proof (Join_entry_parent y n Hn) as Hup.
  assert (Hb : base (Join [Clean y; n]) = n).
  { rewrite Join_2 by apply Clean_not_nil.
    assert (Hbn : base n = n).
    { unfold base. by rewrite split_path_no_sep by (by apply plain_no_sep). }
    rewrite base_Clean; rewrite base_sep; by rewrite Hbn. }
  set (P := Join [Clean y; n]) in *.
  assert (Hs : Stat fs P = Err ENOTDIR).
  { apply Stat_err. rewrite namei_plain by (by rewrite Hb). by rewrite Hpar. }
  assert (Hrev : rev (split_path P) = base P :: rev (removelast (split_path P))).
  { rewrite <- rev_unit. by rewrite <- split_path_base. }
  unfold MkdirAll. rewrite MkdirAll_elems_unfold. cbv zeta.
  rewrite rev_involutive, join_split, Hs, Hrev, rev_involutive.
  assert (Hmk : Mkdir fs P = Err ENOTDIR) by (unfold Mkdir; by rewrite Hpar).
  destruct Hup as [E|E]; rewrite E.
  - rewrite decide_False by apply Clean_not_nil.
    rewrite MkdirAll_elems_unfold. cbv zeta. rewrite rev_involutive, E.
    unfold Stat. by rewrite Hes.
  - rewrite decide_True by done. by rewrite Hmk, Hs.
Qed.

(** The directory of a collection inside a collection. *)
Lemma collection_dir_nested (st : state) (a b : string) :
  a ≠ "" ->
  collection_dir st (a +:+ "/" +:+ b) = Join [collection_dir st a; b].
Proof.
  intros Ha. unfold collection_dir.
  assert (Hab : a +:+ "/" +:+ b ≠ "").
  { intros E. by apply append_eq_nil in E as [? _]. }
  destruct (decide (dir (driver st) = "")) as [->|Hd].
  - rewrite !Join_nil_l, !Join_1 by done.
    rewrite Join_2 by apply Clean_not_nil. by rewrite Clean_Clean_sep.
  - rewrite (Join_2 _ a), (Join_2 _ (a +:+ "/" +:+ b)) by done.
    rewrite Join_2 by apply Clean_not_nil.
    rewrite Clean_Clean_sep.
    + by rewrite !append_assoc.
    + intros E. by apply append_eq_nil in E as [? _].
Qed.

(** A loop of [ReadAll] that ends in an error gives no records, and the
    error is the one of the file system. *)
Lemma ReadAll_loop_err (fs : filesystem) (d : string)
    (files acc records : list string) (e : error) :
  ReadAll_loop fs d files acc = (records, Some e) ->
  records = [] ∧ ∃ en, e = PathError en.
Proof.
  revert acc. induction files as [|f files IH]; intros acc; cbn [ReadAll_loop]; [done|].
  destruct (ReadFile fs (Join [d; f])) as [data|en]; [apply IH|].
  intros [= <- <-]. eauto.
Qed.

(** A directory among the entries of a collection makes [ReadAll] fail. *)
Lemma ReadAll_dir_entry (collection sub y : string) (st : state)
    (q : list string) (es ds : list (string * node)) :
  collection ≠ "" -> plain sub = true ->
  collection_dir st collection = Clean y ->
  namei (disk st) (Clean y) = Ok (q, Dir es) ->
  find_entry sub es = Some (Dir ds) ->
  ∃ e, (ReadAll collection st).1 = ([], Some (PathError e)).
Proof.
  intros Hc Hp Hy Hn Hf. unfold ReadAll. case_decide; [done|].
  fold (collection_dir st collection). rewrite Hy.
  unfold stat, Stat, ReadDir. rewrite Hn. cbn [fst snd].
  destruct (ReadAll_loop (disk st) (Clean y) (sort_names (map fst es)) [])
    as [recs [e|]] eqn:El.
  - destruct (ReadAll_loop_err _ _ _ _ _ _ El) as [-> [en ->]]. eauto.
  - exfalso. destruct (ReadAll_loop_reads _ _ _ _ _ El) as [_ Hall].
    destruct (Hall sub) as (data & Hrd & _).
    { apply elem_of_sort_names. by eapply find_entry_elem. }
    pose proof (namei_parent_of_dir _ _ _ _ _ Hp Hn) as Hpar.
    assert (Hb : base (Join [Clean y; sub]) = sub).
    { by apply namei_parent_inv in Hpar as (_ & _ & _ & <-). }
    revert Hrd. unfold ReadFile.
    rewrite namei_plain, Hpar by (by rewrite Hb).
    rewrite lookup_node_app, (namei_lookup _ _ _ _ Hn). simpl. by rewrite Hf.
Qed.

(** ** After [Delete] *)

(** Where a path resolves after an entry of its directory has gone: its
    directory is found as before, or a directory on the way is missing. *)
Lemma namei_parent_removed (fs : filesystem) (path : string) (p : list string)
    (b x : string) :
  namei_parent fs path = Ok (p, b) ->
  let fs' := with_root fs (remove_node (p ++ [x]) (root fs)) in
  namei_parent fs' path = Ok (p, b) ∨ namei fs' path = Err ENOENT.
Proof.
  intros H fs'. pose proof H as (Hne & Hw & Hdir & ->)%namei_parent_inv.
  assert (Hq : p ++ [x] ≠ []) by (by destruct p).
  destruct (walk_shrink (root fs) (root fs') _ _ _
              (λ c, dir_at_remove_node_cases _ c _ Hq) Hw) as [Hw'|Hw'].
  - left. apply namei_parent_intro; [done|done|].
    by apply dir_at_remove_node_above.
  - right. unfold namei. case_decide; [done|].
    rewrite (split_path_base path), walk_app.
    change (start_of fs' path) with (start_of fs path). by rewrite Hw'.
Qed.

Lemma Stat_removed_sibling (fs : filesystem) (path : string) (p : list string)
    (b x : string) :
  namei_parent fs path = Ok (p, b) ->
  let fs' := with_root fs (remove_node (p ++ [x]) (root fs)) in
  (∃ fi, Stat fs' path = Ok fi) ∨ Stat fs' path = Err ENOENT.
Proof.
  intros H fs'. destruct (namei_parent_removed fs path p b x H) as [Hp|Hn].
  - fold fs' in Hp. unfold Stat.
    destruct (namei_of_parent _ _ _ _ Hp) as [(q & n & ->)| ->]; eauto.
  - right. by apply Stat_err.
Qed.

Lemma Delete_dir (collection resource : string) (st : state) :
  dir (driver (Delete collection resource st).2) = dir (driver st).
Proof.
  rewrite (proj1 (Delete_registry collection resource st)).
  apply GetOrCreateMutex_dir.
Qed.

(** A second [Delete] of a record finds nothing: for a relative collection
    name and a resource that ends in a plain name, when the record is there
    and nothing stands under its bare name, the first [Delete] returns no
    error and the second one a not-found error, and changes nothing. *)
Theorem Delete_twice (collection resource : string) (st : state) (fi : FileInfo) :
  collection ≠ "" -> is_rooted collection = false ->
  plain (base resource) = true ->
  Stat (disk st) (record_path st collection resource) = Err ENOENT ->
  Stat (disk st) (record_path st collection resource +:+ ".json") = Ok fi ->
  IsRegular (Mode fi) = true ->
  let st1 := (Delete collection resource st).2 in
  (Delete collection resource st).1 = None
  ∧ (∃ e, (Delete collection resource st1).1 = Some e ∧ NotFoundError e = true)
  ∧ disk (Delete collection resource st1).2 = disk st1.
Proof.
  intros Hc Hrel Hp Hs1 Hs2 Hreg st1.
  pose proof (delete_path_relative st collection resource Hc Hrel) as Hdp.
  set (path := record_path st collection resource) in *.
  assert (Hst : stat (disk st) (delete_path st collection resource) = Ok fi).
  { rewrite Hdp. unfold stat. by rewrite Hs1. }
  destruct (Delete_regular_case collection resource st fi Hst Hreg)
    as (p & Hpar & He & Hd & Hgone).
  rewrite Hdp in Hpar, Hd, Hgone. fold st1 in Hd, Hgone.
  split; [done|].
  assert (Hpath : path ≠ "") by (by apply record_path_not_nil).
  rewrite namei_parent_suffix in Hpar by done.
  destruct (namei_parent (disk st) path) as [[p' b]|] eqn:Ep; [|done].
  injection Hpar as -> Hb.
  assert (b = base path) as -> by (by apply namei_parent_inv in Ep as (_ & _ & _ & ?)).
  assert (Hplain : plain (base path) = true).
  { unfold path, record_path.
    destruct (decide (dir (driver st) = "")) as [Ed|Ed].
    - rewrite Ed, Join_nil_l, Join_2 by done.
      rewrite base_Clean; by rewrite base_sep.
    - rewrite Join_3 by done. rewrite base_Clean; by rewrite !base_sep. }
  assert (Hnone : lookup_node (p ++ [base path]) (root (disk st)) = None).
  { apply Stat_err in Hs1. rewrite namei_plain, Ep in Hs1 by done.
    by destruct (lookup_node _ _). }
  assert (Hs1' : Stat (disk st1) path = Err ENOENT).
  { apply Stat_err. rewrite Hd.
    destruct (namei_parent_removed _ _ _ _ (base path +:+ ".json") Ep) as [Hp'|Hn];
      [|done].
    rewrite namei_plain, Hp' by done. simpl.
    rewrite (lookup_remove_node_diverge p (base path) (base path +:+ ".json") [] []).
    - by rewrite Hnone.
    - intros E. symmetry in E. by apply append_neq_self in E. }
  assert (Hst1 : stat (disk st1) (delete_path st1 collection resource) = Err ENOENT).
  { unfold delete_path. unfold st1 at 2. rewrite Delete_dir.
    fold (delete_path st collection resource). rewrite Hdp.
    unfold stat. rewrite Hs1'. simpl. exact Hgone. }
  by apply (Delete_missing_case collection resource st1 ENOENT).
Qed.

(** ** Directories inside a collection *)

(** [ReadAll] reads every entry of the collection directory as a file: when
    one of them is a directory, it returns an error of the file system and
    no records. *)
Theorem ReadAll_subdirectory_fails (collection sub : string) (st : state)
    (fi : FileInfo) :
  collection ≠ "" -> plain sub = true ->
  Stat (disk st) (Join [collection_dir st collection; sub]) = Ok fi ->
  IsDir (Mode fi) = true ->
  ∃ e, (ReadAll collection st).1 = ([], Some (PathError e)).
Proof.
  intros Hc Hp Hs Hdir.
  destruct (collection_dir_Clean st collection Hc) as [y Hy]. rewrite Hy in Hs.
  apply Stat_inv in Hs as (q & n & Hq & Hmode).
  destruct n as [dd|ds]; [by rewrite Hmode in Hdir|].
  destruct (namei_parent_of_namei _ _ _ _ Hq) as [p Hpar].
  destruct (namei_dir_of_entry _ _ _ _ _ Hp Hpar) as [Hb [es Hes]].
  rewrite namei_plain, Hpar, Hb in Hq by (by rewrite Hb).
  rewrite lookup_node_app, (namei_lookup _ _ _ _ Hes) in Hq. simpl in Hq.
  destruct (find_entry sub es) as [n|] eqn:Ef; [|done].
  injection Hq as _ ->.
  by apply (ReadAll_dir_entry collection sub y st p es ds).
Qed.

(** [Delete] of a record that is there, with nothing under its bare name,
    leaves the record of every resource whose last path element is another
    name as it is. *)
Theorem Delete_keeps_other_record (c1 r1 c2 r2 : string) (st : state)
    (fi : FileInfo) (data : string) :
  c1 ≠ "" -> c2 ≠ "" -> is_rooted c2 = false ->
  plain (base r2) = true -> base r1 ≠ base r2 ->
  Stat (disk st) (record_path st c2 r2) = Err ENOENT ->
  Stat (disk st) (record_path st c2 r2 +:+ ".json") = Ok fi ->
  IsRegular (Mode fi) = true ->
  ReadFile (disk st) (final_path st c1 r1) = Ok data ->
  (Delete c2 r2 st).1 = None
  ∧ ReadFile (disk (Delete c2 r2 st).2) (final_path st c1 r1) = Ok data.
Proof.
  intros H1 H2 Hrel Hp Hb Hs1 Hs2 Hreg [q Hq]%ReadFile_inv.
  pose proof (delete_path_relative st c2 r2 H2 Hrel) as Hdp.
  assert (Hfp : final_path st c2 r2 = record_path st c2 r2 +:+ ".json").
  { by apply Join_final_path. }
  set (path := record_path st c2 r2) in *.
  assert (Hst : stat (disk st) (delete_path st c2 r2) = Ok fi).
  { rewrite Hdp. unfold stat. by rewrite Hs1. }
  destruct (Delete_regular_case c2 r2 st fi Hst Hreg) as (p & Hpar & He & Hd & _).
  rewrite Hdp in Hpar, Hd. split; [done|].
  destruct (final_path_base st c1 r1 H1) as (_ & Hb1 & Hp1).
  destruct (final_path_base st c2 r2 H2) as (_ & Hb2 & Hp2).
  rewrite Hfp in Hb2, Hp2.
  rewrite base_suffix in Hb2 by done. apply append_inj_r in Hb2.
  rewrite Hb2 in Hpar, Hd.
  apply Stat_inv in Hs2 as (q2 & n2 & Hn2 & Hm2).
  destruct n2 as [d2|es2]; [|by rewrite Hm2 in Hreg].
  rewrite namei_plain, Hpar in Hn2 by done.
  destruct (lookup_node (p ++ [base r2 +:+ ".json"]) (root (disk st)))
    as [n|] eqn:El; [|done].
  injection Hn2 as _ ->.
  apply ReadFile_inv. exists q. rewrite Hd.
  apply (namei_file_keep (λ c, (p ++ [base r2 +:+ ".json"]) `prefix_of` c)
           (disk st) _ _ q data); [| | |done].
  - split; [done|]. intros c Hc. simpl. apply dir_at_remove_node; [|done].
    by eapply file_not_above.
  - apply remove_node_keeps_files.
  - intros [k ->]. pose proof (namei_lookup _ _ _ _ Hq) as Hl.
    rewrite lookup_node_app, El in Hl. simpl in Hl.
    destruct k as [|x k]; [|done].
    rewrite app_nil_r in Hq.
    rewrite namei_plain in Hq by done.
    destruct (namei_parent (disk st) (final_path st c1 r1)) as [[p1 b1]|] eqn:Ep;
      [|done].
    apply namei_parent_inv in Ep as (_ & _ & _ & ->).
    destruct (lookup_node (p1 ++ [base (final_path st c1 r1)]) (root (disk st)))
      as [n1|]; [|done].
    injection Hq as E _.
    apply app_inj_tail in E as [_ E]. rewrite Hb1 in E.
    by apply append_inj_r in E.
Qed.

Section Serializer.

Context {V : Type}.
Variable MarshalIndent : V -> string -> string -> option string.
Variable Unmarshal : string -> V -> V * bool.

Lemma Write_events (collection resource : string) (v : V) (st : state) :
  collection ≠ "" -> resource ≠ "" ->
  events (Write MarshalIndent collection resource v st).2
  = events st ++ locked_call (GetOrCreateMutex collection st).1.
Proof.
  clear Unmarshal. intros Hc Hr.
  unfold Write. case_decide; [done|]. case_decide; [done|].
  pose proof (GetOrCreateMutex_events collection st) as He.
  destruct (GetOrCreateMutex collection st) as [mutex st0]. simpl in He.
  cbn [emit driver disk events fst snd].
  assert (Hev : ∀ (r : option error * state),
            events r.2 = events st0 ++ [Lock (CollectionMutex mutex)] ->
            events (let '(err, st1) := r in
                    (err, emit (Unlock (CollectionMutex mutex)) st1)).2
            = events st ++ locked_call mutex).
  { intros [err st1] Hr1. simpl in *. rewrite Hr1, He.
    by rewrite <- !app_assoc. }
  apply Hev. destruct (MkdirAll _ _); [|done].
  destruct (MarshalIndent _ _ _); [|done].
  destruct (WriteFile _ _ _); [|done].
  by destruct (Rename _ _ _).
Qed.

(** [Write] with non-empty names takes the lock of its collection and
    releases it on every way out, success or error: the log grows by the
    four events of a locked call, and the collection is in the registry
    afterwards. *)
Theorem Write_lock_discipline (collection resource : string) (v : V) (st : state) :
  collection ≠ "" -> resource ≠ "" ->
  let m := (GetOrCreateMutex collection st).1 in
  events (Write MarshalIndent collection resource v st).2
  = events st ++ locked_call m
  ∧ mutexes (driver (Write MarshalIndent collection resource v st).2) !! collection
    = Some m.
Proof.
  clear Unmarshal. intros Hc Hr m. split; [by apply Write_events|].
  assert (Hd : driver (Write MarshalIndent collection resource v st).2
               = driver (GetOrCreateMutex collection st).2).
  { unfold Write. case_decide; [done|]. case_decide; [done|].
    destruct (GetOrCreateMutex collection st) as [mutex st0].
    cbn [emit driver disk snd].
    destruct (MkdirAll _ _); [|done].
    destruct (MarshalIndent _ _ _); [|done].
    destruct (WriteFile _ _ _); [|done].
    by destruct (Rename _ _ _). }
  rewrite Hd. apply GetOrCreateMutex_lookup.
Qed.

(** ** The steps of [Write] *)

Lemma Write_steps (collection resource : string) (v : V) (st : state) :
  collection ≠ "" -> resource ≠ "" ->
  Write_outcome MarshalIndent st collection resource v
    (Write MarshalIndent collection resource v st).1
    (disk (Write MarshalIndent collection resource v st).2).
Proof.
  clear Unmarshal. intros Hc Hr. unfold Write.
  case_decide; [done|]. case_decide; [done|].
  pose proof (GetOrCreateMutex_disk collection st) as Hdisk.
  pose proof (GetOrCreateMutex_dir collection st) as Hdir.
  destruct (GetOrCreateMutex collection st) as [mutex st0]. simpl in Hdisk, Hdir.
  cbn [emit driver disk]. rewrite Hdir, Hdisk.
  fold (collection_dir st collection). fold (final_path st collection resource).
  fold (temp_path st collection resource).
  destruct (MkdirAll _ _) as [fs1|e] eqn:E1.
  2:{ simpl. rewrite Hdisk. by constructor. }
  destruct (MarshalIndent v "" tab) as [b|] eqn:E2.
  2:{ simpl. by constructor. }
  destruct (WriteFile _ _ _) as [fs2|e] eqn:E3.
  2:{ simpl. by econstructor. }
  destruct (Rename _ _ _) as [fs3|e] eqn:E4; simpl; by econstructor.
Qed.

Lemma Write_frame (collection resource : string) (v : V)
    (st : state) :
  collection ≠ "" -> resource ≠ "" ->
  let st' := (Write MarshalIndent collection resource v st).2 in
  keeps_dirs (disk st) (disk st')
  ∧ keeps_files (Write_targets st st' collection resource) (disk st) (disk st').
Proof.
  clear Unmarshal. intros Hc Hr st'. subst st'.
  pose proof (Write_steps collection resource v st Hc Hr) as H.
  unfold Write_targets.
  destruct (final_path_base st collection resource Hc) as (Hne & _ & Hplain).
  set (fnl := final_path st collection resource) in *.
  unfold temp_path in H. fold fnl in H.
  assert (Hnone : ∀ fs1 (P : list string -> Prop),
            keeps_files nowhere (disk st) fs1 -> keeps_files P (disk st) fs1).
  { intros fs1 P. apply keeps_files_weaken. by unfold nowhere. }
  inversion H as [e E1 He Hd|fs1 E1 E2 He Hd|fs1 b e E1 E2 E3 He Hd
                  |fs1 fs2 b e E1 E2 E3 E4 He Hd|fs1 fs2 fs3 b E1 E2 E3 E4 He Hd].
  - split; [apply keeps_dirs_refl|apply keeps_files_refl].
  - apply MkdirAll_spec in E1 as [Hd1 Hf1]. split; [done|by apply Hnone].
  - apply MkdirAll_spec in E1 as [Hd1 Hf1]. split; [done|by apply Hnone].
  - apply MkdirAll_spec in E1 as [Hd1 Hf1].
    unfold temp_path in E3, E4. fold fnl in E3, E4.
    apply WriteFile_spec in E3 as (p & bt & Hpt & Hbt & Hd2 & Hf2 & Htmp).
    rewrite namei_parent_suffix in Hpt by done.
    destruct (namei_parent fs1 fnl) as [[p' bn]|] eqn:Hpn; [|done].
    injection Hpt as -> <-.
    assert (bn = base fnl) as -> by (by apply namei_parent_inv in Hpn as (_ & _ & _ & ?)).
    split; [eauto using keeps_dirs_trans|].
    eapply keeps_files_weaken; [|by eapply keeps_files_trans].
    intros q [[]| ->]. exists p. split; [by eapply namei_parent_mono|by right].
  - apply MkdirAll_spec in E1 as [Hd1 Hf1].
    unfold temp_path in E3, E4. fold fnl in E3, E4.
    apply WriteFile_spec in E3 as (p & bt & Hpt & Hbt & Hd2 & Hf2 & Htmp).
    rewrite namei_parent_suffix in Hpt by done.
    destruct (namei_parent fs1 fnl) as [[p' bn]|] eqn:Hpn; [|done].
    injection Hpt as -> <-.
    assert (bn = base fnl) as -> by (by apply namei_parent_inv in Hpn as (_ & _ & _ & ?)).
    assert (Hne' : base fnl +:+ ".tmp" ≠ base fnl) by (by apply append_neq_self).
    assert (Hpn2 : namei_parent fs2 fnl = Ok (p, base fnl))
      by (by eapply namei_parent_mono).
    assert (Hpt2 : namei_parent fs2 (fnl +:+ ".tmp") = Ok (p, base fnl +:+ ".tmp")).
    { rewrite namei_parent_suffix by done. by rewrite Hpn2. }
    destruct (Rename_sibling_spec _ _ _ _ _ _ _ _ Hpt2 Hpn2 Hne' Htmp E4)
      as (Hd3 & Hf3 & _).
    split; [eauto using keeps_dirs_trans|].
    eapply keeps_files_weaken;
      [|eapply keeps_files_trans; [by eapply keeps_files_trans|done]].
    intros q Hq. exists p. split; [by eapply namei_parent_mono|].
    destruct Hq as [[[]| ->]|[-> | ->]]; auto.
Qed.

(** A record of another name is at none of the locations that a [Write]
    may change. *)
Lemma Write_targets_other (st st' : state) (c1 r1 c2 r2 : string)
    (q : list string) (n : node) :
  c1 ≠ "" -> c2 ≠ "" -> base r1 ≠ base r2 ->
  namei (disk st) (final_path st c1 r1) = Ok (q, n) ->
  ¬ Write_targets st st' c2 r2 q.
Proof.
  intros H1 H2 Hb Hq.
  destruct (final_path_base st c1 r1 H1) as (_ & Hb1 & Hp1).
  destruct (final_path_base st c2 r2 H2) as (_ & Hb2 & _).
  rewrite namei_plain in Hq by done.
  destruct (namei_parent (disk st) (final_path st c1 r1)) as [[p1 b1]|] eqn:Ep; [|done].
  apply namei_parent_inv in Ep as (_ & _ & _ & ->).
  destruct (lookup_node _ _); [|done]. injection Hq as <- _.
  intros (p & _ & [E|E]); apply app_inj_tail in E as [_ E];
    rewrite Hb1, Hb2 in E.
  - by apply append_inj_r in E.
  - by apply final_is_no_temp in E.
Qed.

(** Whatever its outcome, a [Write] leaves the record of every resource
    whose last path element is another name as it is. *)
Theorem Write_keeps_other_record (c1 r1 c2 r2 : string) (v : V) (st : state)
    (data : string) :
  c1 ≠ "" -> c2 ≠ "" -> r2 ≠ "" ->
  base r1 ≠ base r2 ->
  ReadFile (disk st) (final_path st c1 r1) = Ok data ->
  ReadFile (disk (Write MarshalIndent c2 r2 v st).2) (final_path st c1 r1)
  = Ok data.
Proof.
  clear Unmarshal. intros H1 H2 Hr2 Hb [q Hq]%ReadFile_inv.
  destruct (Write_frame c2 r2 v st H2 Hr2) as [Hd Hf].
  apply ReadFile_inv. exists q.
  eapply namei_file_keep; [done|done| |done].
  by apply (Write_targets_other st _ c1 r1 c2 r2 q (File data)).
Qed.

(** No lost update: a record written is read back after a [Write], of any
    outcome, of a resource whose last path element is another name. *)
Theorem Write_Write_Read (c1 r1 c2 r2 : string) (v1 v2 out : V)
    (st st1 : state) :
  c1 ≠ "" -> c2 ≠ "" -> r2 ≠ "" ->
  plain (base r1) = true -> base r1 ≠ base r2 ->
  (∀ b, MarshalIndent v1 "" tab = Some b ->
        Unmarshal (b +:+ newline) out = (v1, true)) ->
  Write MarshalIndent c1 r1 v1 st = (None, st1) ->
  (Read Unmarshal c1 r1 out (Write MarshalIndent c2 r2 v2 st1).2).1
  = (None, v1).
Proof.
  intros H1 H2 Hr2 Hp Hb Hrt Hw.
  assert (Hr1 : r1 ≠ "") by (by intros ->).
  destruct (Write_disk MarshalIndent _ _ _ _ _ _ H1 Hr1 Hw)
    as [_ [[_ (b & Hm & Hf)]|[? _]]]; [|done].
  assert (Hd1 : dir (driver st1) = dir (driver st)).
  { pose proof (Write_dir MarshalIndent c1 r1 v1 st) as Hd. by rewrite Hw in Hd. }
  assert (Hfp : final_path st1 c1 r1 = final_path st c1 r1).
  { unfold final_path, collection_dir. by rewrite Hd1. }
  rewrite <- Hfp in Hf.
  assert (Hf2 : ReadFile (disk (Write MarshalIndent c2 r2 v2 st1).2)
                  (final_path st1 c1 r1) = Ok (b +:+ newline)).
  { pose proof Hf as [q Hq]%ReadFile_inv.
    destruct (Write_frame c2 r2 v2 st1 H2 Hr2) as [Hk1 Hk2].
    apply ReadFile_inv. exists q.
    eapply namei_file_keep; [done|done| |done].
    by apply (Write_targets_other st1 _ c1 r1 c2 r2 q (File (b +:+ newline))). }
  set (st2 := (Write MarshalIndent c2 r2 v2 st1).2) in *.
  assert (Hd2 : dir (driver st2) = dir (driver st1))
    by apply Write_dir.
  unfold final_path, collection_dir in Hf2.
  rewrite Join_final_path in Hf2 by done. rewrite <- Hd2 in Hf2.
  rewrite (Read_file Unmarshal c1 r1 out st2 (b +:+ newline)); [|done..].
  by rewrite (Hrt b Hm).
Qed.

Lemma Write_keeps_dirs (collection resource : string) (v : V) (st : state) :
  keeps_dirs (disk st) (disk (Write MarshalIndent collection resource v st).2).
Proof.
  clear Unmarshal.
  destruct (decide (collection = "")) as [->|Hc].
  { unfold Write. rewrite decide_True by done. apply keeps_dirs_refl. }
  destruct (decide (resource = "")) as [->|Hr].
  { unfold Write. rewrite decide_False, decide_True by done. apply keeps_dirs_refl. }
  by destruct (Write_frame collection resource v st Hc Hr).
Qed.

(** Only [Delete] removes a directory: over any run of calls with no
    [Delete] among them, whatever the names and the outcomes, a path that
    [Stat] reports as a directory before the run is a directory after it. *)
Theorem run_keeps_directories (ks : list call) (st : state) (path : string)
    (fi : FileInfo) :
  (∀ c r, CallDelete c r ∉ ks) ->
  Stat (disk st) path = Ok fi -> IsDir (Mode fi) = true ->
  ∃ fi', Stat (disk (run MarshalIndent Unmarshal ks st)) path = Ok fi'
         ∧ IsDir (Mode fi') = true.
Proof.
  revert st fi. induction ks as [|k ks IH]; intros st fi Hno Hs Hdir; [eauto|].
  change (run MarshalIndent Unmarshal (k :: ks) st)
    with (run MarshalIndent Unmarshal ks (run_call MarshalIndent Unmarshal k st)).
  assert (Hk : keeps_dirs (disk st) (disk (run_call MarshalIndent Unmarshal k st))).
  { destruct k as [c r v|c r v|c|c r|c]; simpl.
    - apply Write_keeps_dirs.
    - rewrite Read_state. apply keeps_dirs_refl.
    - rewrite ReadAll_state. apply keeps_dirs_refl.
    - destruct (Hno c r). by left.
    - rewrite GetOrCreateMutex_disk. apply keeps_dirs_refl. }
  destruct (Stat_dir_keep _ _ _ _ Hk Hs Hdir) as (fi1 & Hs1 & Hdir1).
  apply (IH _ fi1); [|done|done].
  intros c r Hin. apply (Hno c r). by right.
Qed.

(** When [Write] returns no error, or the error of the serializer, the
    collection directory is there: it is made before the value is
    serialized, and a failed serialization leaves it behind. *)
Theorem Write_makes_collection (collection resource : string) (v : V)
    (st st' : state) (err : option error) :
  Write MarshalIndent collection resource v st = (err, st') ->
  err = None ∨ err = Some MarshalError ->
  ∃ fi, Stat (disk st') (collection_dir st collection) = Ok fi
        ∧ IsDir (Mode fi) = true.
Proof.
  clear Unmarshal. intros Hw He.
  assert (Hn : collection ≠ "" ∧ resource ≠ "").
  { revert Hw. unfold Write. case_decide; [by intros [= <- _]; destruct He|].
    case_decide; [by intros [= <- _]; destruct He|done]. }
  destruct Hn as [Hc Hr].
  pose proof (Write_steps collection resource v st Hc Hr) as H.
  rewrite Hw in H. simpl in H.
  inversion H as [e E1 He' Hd|fs1 E1 E2 He' Hd|fs1 b e E1 E2 E3 He' Hd
                  |fs1 fs2 b e E1 E2 E3 E4 He' Hd|fs1 fs2 fs3 b E1 E2 E3 E4 He' Hd];
    subst err; try (by destruct He).
  - by apply MkdirAll_Stat in E1.
  - apply MkdirAll_Stat in E1 as (fi & Hs & Hdir).
    apply WriteFile_spec in E3 as (p & bt & Hpt & Hbt & Hd2 & Hf2 & Htmp).
    destruct (Stat_dir_keep _ _ _ _ Hd2 Hs Hdir) as (fi2 & Hs2 & Hdir2).
    assert (Hd3 : keeps_dirs fs2 fs3).
    { destruct (final_path_base st collection resource Hc) as (Hne & _ & Hplain).
      unfold temp_path in *.
      rewrite namei_parent_suffix in Hpt by done.
      destruct (namei_parent fs1 _) as [[p' bn]|] eqn:Hpn; [|done].
      injection Hpt as -> <-.
      assert (Hne' : bn +:+ ".tmp" ≠ bn) by (by apply append_neq_self).
      assert (Hpn2 : namei_parent fs2 (final_path st collection resource) = Ok (p, bn))
        by (by eapply namei_parent_mono).
      assert (Hpt2 : namei_parent fs2 (final_path st collection resource +:+ ".tmp")
                     = Ok (p, bn +:+ ".tmp")).
      { rewrite namei_parent_suffix by done. by rewrite Hpn2. }
      rewrite Hd.
      by destruct (Rename_sibling_spec _ _ _ _ _ _ _ _ Hpt2 Hpn2 Hne' Htmp E4). }
    rewrite <- Hd. by eapply Stat_dir_keep.
Qed.

(** ** When [Write] succeeds *)



(** ** A database path that is a file *)

(** [New] asks only whether the path exists: on a regular file it returns a
    driver and no error, and every [Write] of that driver into a collection
    of a plain name fails with [ENOTDIR] and leaves the disk as it is. *)
Theorem New_accepts_file (d collection resource : string) (v : V)
    (fs : filesystem) (fi : FileInfo) :
  Stat fs (Clean d) = Ok fi -> IsRegular (Mode fi) = true ->
  plain collection = true -> resource ≠ "" ->
  (New d fs).1 = None
  ∧ (Write MarshalIndent collection resource v (New d fs).2).1
    = Some (PathError ENOTDIR)
  ∧ disk (Write MarshalIndent collection resource v (New d fs).2).2 = fs.
Proof.
  clear Unmarshal. intros Hs Hreg Hp Hr.
  assert (Hc : collection ≠ "") by (by intros ->).
  unfold New. rewrite Hs. cbn [fst snd]. split; [done|].
  set (st := {| driver := {| mutexes := ∅; dir := Clean d |}; disk := fs;
                allocated := 0; events := [] |}).
  apply Stat_inv in Hs as (p & n & Hn & Hm).
  destruct n as [data|es]; [|by rewrite Hm in Hreg].
  assert (E1 : MkdirAll (disk st) (collection_dir st collection) = Err ENOTDIR).
  { by apply (MkdirAll_under_file fs d collection p data). }
  pose proof (Write_steps collection resource v st Hc Hr) as H.
  remember (disk (Write MarshalIndent collection resource v st).2) as fsr eqn:Efsr.
  remember ((Write MarshalIndent collection resource v st).1) as err eqn:Eerr.
  clear Efsr Eerr.
  inversion H as [e F1 He Hd|fs1' F1 F2 He Hd|fs1' b' e F1 F2 F3 He Hd
                  |fs1' fs2' b' e F1 F2 F3 F4 He Hd|fs1' fs2' fs3 b' F1 F2 F3 F4 He Hd];
    try congruence.
  split; [congruence|done].
Qed.

(** ** The temp file *)

(** A [Write] that returns no error leaves no temp file: the temp path does
    not exist afterwards. *)
Theorem Write_leaves_no_temp (collection resource : string) (v : V)
    (st st' : state) :
  Write MarshalIndent collection resource v st = (None, st') ->
  Stat (disk st') (temp_path st collection resource) = Err ENOENT.
Proof.
  clear Unmarshal. intros Hw.
  assert (Hc : collection ≠ "").
  { intros ->. unfold Write in Hw. by rewrite decide_True in Hw. }
  assert (Hr : resource ≠ "").
  { intros ->. unfold Write in Hw. by rewrite decide_False, decide_True in Hw. }
  pose proof (Write_steps collection resource v st Hc Hr) as H.
  rewrite Hw in H. simpl in H.
  destruct (final_path_base st collection resource Hc) as (Hne & _ & Hplain).
  unfold temp_path in *.
  set (fnl := final_path st collection resource) in *.
  inversion H as [| | | |fs1 fs2 fs3 b E1 E2 E3 E4 He Hd].
  unfold temp_path in E3, E4. fold fnl in E3, E4.
  apply WriteFile_spec in E3 as (p & bt & Hpt & Hbt & Hd2 & Hf2 & Htmp).
  rewrite namei_parent_suffix in Hpt by done.
  destruct (namei_parent fs1 fnl) as [[p' bn]|] eqn:Hpn; [|done].
  injection Hpt as -> <-.
  assert (bn = base fnl) as -> by (by apply namei_parent_inv in Hpn as (_ & _ & _ & ?)).
  assert (Hne' : base fnl +:+ ".tmp" ≠ base fnl) by (by apply append_neq_self).
  assert (Hpn2 : namei_parent fs2 fnl = Ok (p, base fnl))
    by (by eapply namei_parent_mono).
  assert (Hpt2 : namei_parent fs2 (fnl +:+ ".tmp") = Ok (p, base fnl +:+ ".tmp")).
  { rewrite namei_parent_suffix by done. by rewrite Hpn2. }
  destruct (Rename_sibling_spec _ _ _ _ _ _ _ _ Hpt2 Hpn2 Hne' Htmp E4)
    as (Hd3 & _ & _).
  pose proof (Rename_sibling_gone _ _ _ _ _ _ _ _ Hpt2 Hpn2 Hne' Htmp E4) as Hgone.
  apply Stat_err. rewrite namei_plain.
  - by rewrite (namei_parent_mono _ _ _ _ _ Hd3 Hpt2), Hgone.
  - rewrite base_suffix by done. by apply plain_suffix.
Qed.





(** After a successful [Write] of a resource with a plain name, a [ReadAll]
    of the collection that returns no error has the bytes written among its
    records. *)
Theorem Write_then_ReadAll (collection resource : string) (v : V)
    (st st' : state) (records : list string) :
  collection ≠ "" -> plain resource = true ->
  Write MarshalIndent collection resource v st = (None, st') ->
  (ReadAll collection st').1 = (records, None) ->
  ∃ b, MarshalIndent v "" tab = Some b ∧ (b +:+ newline) ∈ records.
Proof.
  clear Unmarshal. intros Hc Hp Hw Hra.
  assert (Hr : resource ≠ "") by (by intros ->).
  destruct (Write_disk MarshalIndent _ _ _ _ _ _ Hc Hr Hw)
    as [_ [[_ (b & Hm & Hf)]|[? _]]]; [|done].
  exists b. split; [done|].
  assert (Hd : collection_dir st' collection = collection_dir st collection).
  { unfold collection_dir.
    pose proof (Write_dir MarshalIndent collection resource v st) as Hd.
    rewrite Hw in Hd. simpl in Hd. by rewrite Hd. }
  destruct (collection_dir_Clean st collection Hc) as [y Hy].
  assert (Hn : plain (resource +:+ ".json") = true).
  { apply plain_suffix; [done|done]. }
  pose proof Hf as [q Hq]%ReadFile_inv.
  destruct (namei_parent_of_namei _ _ _ _ Hq) as [p Hpar].
  pose proof Hpar as Hpar'. unfold final_path in Hpar'. rewrite Hy in Hpar'.
  destruct (namei_dir_of_entry _ _ _ _ _ Hn Hpar') as [_ [es Hes]].
  rewrite <- Hy in Hes.
  destruct (final_path_base st collection resource Hc) as (_ & Hb & Hplain).
  assert (base resource = resource) as Hbr.
  { unfold base. by rewrite split_path_no_sep by (by apply plain_no_sep). }
  rewrite Hbr in Hb.
  rewrite namei_plain, Hpar, Hb in Hq by done.
  destruct (lookup_node (p ++ [resource +:+ ".json"]) (root (disk st')))
    as [n|] eqn:El; [|done].
  injection Hq as _ ->.
  apply namei_lookup in Hes as Hlp.
  rewrite lookup_node_app, Hlp in El. simpl in El.
  destruct (find_entry (resource +:+ ".json") es) as [c|] eqn:Ef; [|done].
  apply find_entry_elem in Ef.
  revert Hra. unfold ReadAll. case_decide; [done|].
  fold (collection_dir st' collection). rewrite Hd.
  destruct (stat _ _); [|done].
  unfold ReadDir. rewrite Hes. simpl.
  intros Hloop.
  destruct (ReadAll_loop (disk st') (collection_dir st collection)
              (sort_names (map fst es)) []) as [recs err] eqn:El'.
  injection Hloop as -> ->.
  destruct (ReadAll_loop_reads _ _ _ _ _ El') as [_ Hall].
  destruct (Hall (resource +:+ ".json")) as (data & Hrd & Hin).
  { by apply elem_of_sort_names. }
  fold (final_path st collection resource) in Hrd. rewrite Hf in Hrd.
  by injection Hrd as <-.
Qed.

(** Collections nest on the disk, but [ReadAll] does not follow: after a
    record is stored in the collection [a/b], [ReadAll] of the collection
    [a] fails. *)
Theorem Write_nested_breaks_ReadAll (a b resource : string) (v : V)
    (st st' : state) :
  plain a = true -> plain b = true -> plain resource = true ->
  Write MarshalIndent (a +:+ "/" +:+ b) resource v st = (None, st') ->
  ∃ e, (ReadAll a st').1 = ([], Some (PathError e)).
Proof.
  clear Unmarshal. intros Ha Hb Hp Hw.
  assert (Hane : a ≠ "") by (by intros ->).
  assert (Hc : a +:+ "/" +:+ b ≠ "").
  { intros E. by apply append_eq_nil in E as [? _]. }
  assert (Hr : resource ≠ "") by (by intros ->).
  destruct (Write_disk MarshalIndent _ _ _ _ _ _ Hc Hr Hw)
    as [_ [[_ (bytes & _ & Hf)]|[? _]]]; [|done].
  assert (Hd : collection_dir st' a = collection_dir st a).
  { unfold collection_dir.
    pose proof (Write_dir MarshalIndent (a +:+ "/" +:+ b) resource v st) as Hd.
    rewrite Hw in Hd. simpl in Hd. by rewrite Hd. }
  destruct (collection_dir_Clean st a Hane) as [y Hy].
  destruct (collection_dir_Clean st _ Hc) as [y2 Hy2].
  pose proof (collection_dir_nested st a b Hane) as Hnest.
  rewrite Hy, Hy2 in Hnest.
  assert (Hn : plain (resource +:+ ".json") = true) by (by apply plain_suffix).
  apply ReadFile_inv in Hf as [q Hq].
  destruct (namei_parent_of_namei _ _ _ _ Hq) as [p Hpar].
  unfold final_path in Hpar. rewrite Hy2 in Hpar.
  destruct (namei_dir_of_entry _ _ _ _ _ Hn Hpar) as [_ [es2 Hes2]].
  rewrite Hnest in Hes2.
  destruct (namei_parent_of_namei _ _ _ _ Hes2) as [p0 Hpar0].
  destruct (namei_dir_of_entry _ _ _ _ _ Hb Hpar0) as [Hb0 [es Hes]].
  rewrite namei_plain, Hpar0, Hb0 in Hes2 by (by rewrite Hb0).
  rewrite lookup_node_app, (namei_lookup _ _ _ _ Hes) in Hes2. simpl in Hes2.
  destruct (find_entry b es) as [n|] eqn:Ef; [|done].
  injection Hes2 as _ ->.
  apply (ReadAll_dir_entry a b y st' p0 es es2); try done.
  by rewrite Hd.
Qed.

(** After [Delete] has removed the file of a record, [Read] of the same
    names returns a not-found error and leaves the value behind the
    reference alone. *)
Theorem Delete_then_Read (collection resource : string) (out : V) (st : state)
    (fi : FileInfo) :
  collection ≠ "" -> resource ≠ "" -> is_rooted collection = false ->
  stat (disk st) (record_path st collection resource) = Ok fi ->
  IsRegular (Mode fi) = true ->
  (Delete collection resource st).1 = None
  ∧ (Read Unmarshal collection resource out (Delete collection resource st).2).1
    = (Some (PathError ENOENT), out).
Proof.
  intros Hc Hr Hrel Hs Hreg.
  pose proof (delete_path_relative st collection resource Hc Hrel) as Hdp.
  rewrite <- Hdp in Hs.
  destruct (Delete_regular_case collection resource st fi Hs Hreg)
    as (p & Hpar & He & Hd & Hgone).
  split; [done|]. rewrite Hdp in Hpar, Hd, Hgone.
  set (st1 := (Delete collection resource st).2) in *.
  set (path := record_path st collection resource) in *.
  assert (Hpath : path ≠ "") by (by apply record_path_not_nil).
  rewrite namei_parent_suffix in Hpar by done.
  destruct (namei_parent (disk st) path) as [[p' b]|] eqn:Ep; [|done].
  injection Hpar as -> Hb.
  unfold Read. case_decide; [done|]. case_decide; [done|].
  assert (Hrp : Join [dir (driver st1); collection; resource] = path).
  { unfold st1. by rewrite Delete_dir. }
  rewrite Hrp.
  assert (Hrf : ReadFile (disk st1) (path +:+ ".json") = Err ENOENT).
  { apply Stat_err in Hgone. unfold ReadFile. by rewrite Hgone. }
  unfold stat.
  destruct (Stat_removed_sibling _ _ _ _ (base path +:+ ".json") Ep) as [[fi' Hs']|Hs'];
    rewrite <- Hd in Hs'; rewrite Hs'; simpl.
  - by rewrite Hrf.
  - by rewrite Hgone.
Qed.

(** A call adds to the log a run of events in which every lock taken is
    released before the next is taken. *)
Lemma run_call_paired (k : call) (st : state) :
  ∃ evs, events (run_call MarshalIndent Unmarshal k st) = events st ++ evs
         ∧ paired evs.
Proof.
  destruct k as [c r v|c r v|c|c r|c]; simpl.
  - destruct (decide (c = "")) as [Hc|Hc];
      [|destruct (decide (r = "")) as [Hr|Hr]].
    + exists []. unfold Write. case_decide; [|done]. by rewrite app_nil_r.
    + exists []. unfold Write. repeat case_decide; try done. by rewrite app_nil_r.
    + eexists. split; [by apply Write_events|]. by simpl.
  - exists []. by rewrite Read_state, app_nil_r.
  - exists []. by rewrite ReadAll_state, app_nil_r.
  - eexists. split; [apply Delete_events|]. by simpl.
  - eexists. split; [apply GetOrCreateMutex_events|]. by simpl.
Qed.

(** Over any run of calls of the engine, one after the other, the log grows
    by pairs of a [Lock] and the [Unlock] of the same lock: every lock is
    released by the call that took it, and no lock is taken while another
    is held. *)
Theorem run_locks_paired (ks : list call) (st : state) :
  ∃ evs, events (run MarshalIndent Unmarshal ks st) = events st ++ evs
         ∧ paired evs.
Proof.
  revert st. induction ks as [|k ks IH]; intros st.
  - exists []. by rewrite app_nil_r.
  - destruct (run_call_paired k st) as (e1 & H1 & P1).
    destruct (IH (run_call MarshalIndent Unmarshal k st)) as (e2 & H2 & P2).
    exists (e1 ++ e2). split; [|by apply paired_app].
    change (run MarshalIndent Unmarshal (k :: ks) st)
      with (run MarshalIndent Unmarshal ks (run_call MarshalIndent Unmarshal k st)).
    by rewrite H2, H1, <- app_assoc.
Qed.

Lemma registry_ok_run (ks : list call) (st : state) :
  registry_ok st -> registry_ok (run MarshalIndent Unmarshal ks st).
Proof.
  revert st. induction ks as [|k ks IH]; intros st H; [done|].
  simpl. apply IH.
  destruct (run_call_registry MarshalIndent Unmarshal k st)
    as [[Hd Ha]|(c & Hd & Ha)].
  - unfold registry_ok. by rewrite Hd, Ha.
  - pose proof (registry_ok_GetOrCreateMutex c st H) as H'.
    unfold registry_ok in *. by rewrite Hd, Ha.
Qed.

(** From a new driver on, after any run of calls, two different collection
    names have different locks: calls on different collections never wait
    for each other's lock. *)
Theorem registry_injective (d : string) (fs : filesystem) (ks : list call)
    (c1 c2 : string) (m1 m2 : nat) :
  let st := run MarshalIndent Unmarshal ks (New d fs).2 in
  c1 ≠ c2 ->
  mutexes (driver st) !! c1 = Some m1 ->
  mutexes (driver st) !! c2 = Some m2 ->
  m1 ≠ m2.
Proof.
  intros st Hne H1 H2 ->. apply Hne.
  assert (Hok : registry_ok st).
  { apply registry_ok_run. unfold New.
    destruct (Stat fs (Clean d)); [|destruct (Mkdir fs (Clean d))]; by split. }
  by apply (proj2 Hok c1 c2 m2).
Qed.

End Serializer.

Lemma New_root_exists_witness :
  dir (driver Sample.fresh) = Clean "db"
  ∧ mutexes (driver Sample.fresh) = ∅
  ∧ (∃ fi, Stat (disk Sample.fresh) (Clean "db") = Ok fi)
  ∧ keeps_dirs Sample.home (disk Sample.fresh)
  ∧ keeps_files nowhere Sample.home (disk Sample.fresh).
Proof.
  apply (New_root_exists "db" Sample.home Sample.fresh). by vm_compute.
Defined.

Lemma New_again_witness :
  (New "db" (disk Sample.fresh)).1 = None
  ∧ disk (New "db" (disk Sample.fresh)).2 = disk Sample.fresh.
Proof.
  apply (New_again "db" Sample.home Sample.fresh). by vm_compute.
Defined.

Lemma run_keeps_directories_witness :
  ∃ fi', Stat (disk (run Sample.MarshalIndent Sample.Unmarshal
                       [CallWrite "users" "John" (Some "new");
                        CallRead "users" "John" None;
                        CallWrite "users/John.json" "x" (Some "{}")]
                       Sample.stored)) "db/users" = Ok fi'
         ∧ IsDir (Mode fi') = true.
Proof.
  apply (run_keeps_directories Sample.MarshalIndent Sample.Unmarshal _
           Sample.stored "db/users" {| Name := "users"; Mode := ModeDir |});
    [|by vm_compute..].
  intros c r Hin. repeat (apply elem_of_cons in Hin as [Hin|Hin]; [done|]).
  by apply elem_of_nil in Hin.
Defined.

Lemma Write_keeps_other_record_witness :
  ReadFile (disk (Write Sample.MarshalIndent "users" "Jim" None Sample.stored).2)
    (final_path Sample.stored "users" "John") = Ok ("{}" +:+ newline).
Proof.
  apply (Write_keeps_other_record Sample.MarshalIndent "users" "John" "users" "Jim"
           None Sample.stored); try done; by vm_compute.
Defined.

Lemma Write_Write_Read_witness :
  (Read Sample.Unmarshal "users" "John" None
     (Write Sample.MarshalIndent "teams" "Jim" (Some "[]") Sample.stored).2).1
  = (None, Some "{}").
Proof.
  apply (Write_Write_Read Sample.MarshalIndent Sample.Unmarshal
           "users" "John" "teams" "Jim" (Some "{}") (Some "[]") None
           Sample.fresh Sample.stored); try done; try (by vm_compute).
  intros b [= <-]. by vm_compute.
Defined.

Lemma Write_makes_collection_witness :
  ∃ fi, Stat (disk (Write Sample.MarshalIndent "teams" "Jim" None Sample.stored).2)
          (collection_dir Sample.stored "teams") = Ok fi
        ∧ IsDir (Mode fi) = true.
Proof.
  apply (Write_makes_collection Sample.MarshalIndent "teams" "Jim" None
           Sample.stored _ (Some MarshalError)).
  - by vm_compute.
  - by right.
Defined.




Lemma Write_then_ReadAll_witness :
  ∃ b, Sample.MarshalIndent (Some "{}") "" tab = Some b
       ∧ (b +:+ newline) ∈ ["{}" +:+ newline].
Proof.
  apply (Write_then_ReadAll Sample.MarshalIndent "users" "John" (Some "{}")
           Sample.fresh Sample.stored); try done; by vm_compute.
Defined.

Lemma Delete_then_Read_witness :
  (Delete "users" "John" Sample.stored).1 = None
  ∧ (Read Sample.Unmarshal "users" "John" None
       (Delete "users" "John" Sample.stored).2).1
    = (Some (PathError ENOENT), None).
Proof.
  apply (Delete_then_Read Sample.Unmarshal "users" "John" None Sample.stored
           {| Name := "John.json"; Mode := ModeRegular |}); try done; by vm_compute.
Defined.

Lemma Delete_twice_witness :
  (Delete "users" "John" Sample.stored).1 = None
  ∧ (∃ e, (Delete "users" "John" (Delete "users" "John" Sample.stored).2).1 = Some e
          ∧ NotFoundError e = true)
  ∧ disk (Delete "users" "John" (Delete "users" "John" Sample.stored).2).2
    = disk (Delete "users" "John" Sample.stored).2.
Proof.
  apply (Delete_twice "users" "John" Sample.stored
           {| Name := "John.json"; Mode := ModeRegular |}); try done; by vm_compute.
Defined.

Lemma Write_lock_discipline_witness :
  events (Write Sample.MarshalIndent "users" "Jim" None Sample.stored).2
  = events Sample.stored ++ locked_call 0
  ∧ mutexes (driver (Write Sample.MarshalIndent "users" "Jim" None Sample.stored).2)
      !! "users" = Some 0.
Proof.
  apply (Write_lock_discipline Sample.MarshalIndent "users" "Jim" None Sample.stored);
    done.
Defined.

Lemma registry_injective_witness :
  0 ≠ 1.
Proof.
  apply (registry_injective Sample.MarshalIndent Sample.Unmarshal "db" Sample.home
           [CallWrite "users" "John" (Some "{}"); CallDelete "teams" "x"]
           "users" "teams" 0 1).
  - done.
  - by vm_compute.
  - by vm_compute.
Defined.

Lemma Write_leaves_no_temp_witness :
  Stat (disk Sample.stored) (temp_path Sample.fresh "users" "John") = Err ENOENT.
Proof.
  apply (Write_leaves_no_temp Sample.MarshalIndent "users" "John" (Some "{}")
           Sample.fresh Sample.stored). by vm_compute.
Defined.


Lemma Write_nested_breaks_ReadAll_witness :
  ∃ e, (ReadAll "users"
          (Write Sample.MarshalIndent "users/admins" "Jim" (Some "[]")
             Sample.stored).2).1
       = ([], Some (PathError e)).
Proof.
  apply (Write_nested_breaks_ReadAll Sample.MarshalIndent "users" "admins" "Jim"
           (Some "[]") Sample.stored); try done; by vm_compute.
Defined.

Lemma ReadAll_subdirectory_fails_witness :
  ∃ e, (ReadAll "users" Sample.mixed).1 = ([], Some (PathError e)).
Proof.
  apply (ReadAll_subdirectory_fails "users" "old" Sample.mixed
           {| Name := "old"; Mode := ModeDir |}); try done; by vm_compute.
Defined.

Lemma Delete_keeps_other_record_witness :
  (Delete "users" "Jim" Sample.two).1 = None
  ∧ ReadFile (disk (Delete "users" "Jim" Sample.two).2)
      (final_path Sample.two "users" "John")
    = Ok ("{}" +:+ newline).
Proof.
  apply (Delete_keeps_other_record "users" "John" "users" "Jim" Sample.two
           {| Name := "Jim.json"; Mode := ModeRegular |}); try done; by vm_compute.
Defined.

Lemma New_accepts_file_witness :
  (New "db" Sample.file_db).1 = None
  ∧ (Write Sample.MarshalIndent "users" "John" (Some "{}")
       (New "db" Sample.file_db).2).1
    = Some (PathError ENOTDIR)
  ∧ disk (Write Sample.MarshalIndent "users" "John" (Some "{}")
            (New "db" Sample.file_db).2).2 = Sample.file_db.
Proof.
  apply (New_accepts_file Sample.MarshalIndent "db" "users" "John" (Some "{}")
           Sample.file_db
           {| Name := "db"; Mode := ModeRegular |}); try done; by vm_compute.
Defined.

End Extra.
